(** * RLBX server: endpoint resolution and the games fallback chain

    A shallow embedding of [server.js] (the revision with the OAuth
    endpoint resolver): [probeUrl], [resolveEndpoint], [fetchJson], the
    [/api/games] handler and the handlers of the sign-in flow, followed
    by the properties of the resolver, of the layered games query and of
    the sign-in flow.

    Modelling conventions.
    - A JS string is a [string] whose characters are code units below 256.
    - A JS number is an integer [Z] (JSON numbers with a fraction, NaN and
      the infinities are outside the model).
    - [process.env], the [resolved] cache and [ENDPOINT_CANDIDATES] are
      objects used as maps from strings: [gmap string _].  Names inherited
      from [Object.prototype] are outside the model.
    - The network is an oracle that answers a request given the requests
      issued so far; every call of [fetch] is appended to a log, so "no
      probe was issued" is a statement about the log.
    - [console.log]/[console.warn] are advisory and are not modelled. *)

From Stdlib Require Import ZArith Lia Ascii String.
From stdpp Require Import gmap strings list pretty.

Local Set Warnings "-register-all".
Local Open Scope string_scope.
Local Open Scope list_scope.
Local Open Scope Z_scope.

(** ** JavaScript values *)

Module Js.

(** The values a parsed JSON body can hold, together with [undefined],
    which property reads produce. *)
Inductive value : Type :=
  | VUndefined
  | VNull
  | VBool (b : bool)
  | VNum (n : Z)
  | VStr (s : string)
  | VArr (elems : list value)
  | VObj (props : list (string * value)).

(** ToBoolean. *)
Definition truthy (v : value) : bool :=
  match v with
  | VUndefined | VNull => false
  | VBool b => b
  | VNum n => negb (n =? 0)
  | VStr s => negb (String.eqb s EmptyString)
  | VArr _ | VObj _ => true
  end.

Definition nullish (v : value) : bool :=
  match v with
  | VUndefined | VNull => true
  | _ => false
  end.

Definition is_undefined (v : value) : bool :=
  match v with
  | VUndefined => true
  | _ => false
  end.

(** [a || b] and [a && b] on values. *)
Definition or (a b : value) : value := if truthy a then a else b.
Definition and (a b : value) : value := if truthy a then b else a.

(** Own property of an object literal (first binding of the key). *)
Fixpoint assoc (props : list (string * value)) (k : string) : option value :=
  match props with
  | [] => None
  | (k', v) :: rest => if String.eqb k' k then Some v else assoc rest k
  end.

(** [v.k] for [v] neither [null] nor [undefined], where [k] is one of the
    property names the server reads ([id], [name], [data], ...): none of
    them is a property of a JSON array, string, number or boolean.  On
    [null] and [undefined] the read raises a TypeError, which callers
    test with [nullish] first; [field] then returns [VUndefined]. *)
Definition field (v : value) (k : string) : value :=
  match v with
  | VObj props => default VUndefined (assoc props k)
  | _ => VUndefined
  end.

(** [v?.k]. *)
Definition opt_field (v : value) (k : string) : value :=
  if nullish v then VUndefined else field v k.

(** [v?.[0]]. *)
Definition opt_index0 (v : value) : value :=
  match v with
  | VArr elems => default VUndefined (head elems)
  | VStr (String c _) => VStr (String c EmptyString)
  | VObj props => default VUndefined (assoc props "0")
  | _ => VUndefined
  end.

(** ToString, as applied by [encodeURIComponent] and template literals. *)
Fixpoint to_string (v : value) : string :=
  match v with
  | VUndefined => "undefined"
  | VNull => "null"
  | VBool true => "true"
  | VBool false => "false"
  | VNum n => pretty n
  | VStr s => s
  | VArr elems =>
      (fix join (l : list value) : string :=
         match l with
         | [] => EmptyString
         | x :: rest =>
             (if nullish x then EmptyString else to_string x) +:+
             match rest with
             | [] => EmptyString
             | _ :: _ => "," +:+ join rest
             end
         end) elems
  | VObj _ => "[object Object]"
  end.

(** Truthiness of a string-valued slot that may be missing
    ([process.env[k]], [resolved[name]], [list[0]]): present and not the
    empty string. *)
Definition truthy_string (o : option string) : option string :=
  match o with
  | Some s => if String.eqb s EmptyString then None else Some s
  | None => None
  end.

(** [s.trim()]: WhiteSpace and LineTerminator code units below 256. *)
Definition is_space (c : ascii) : bool :=
  let n := nat_of_ascii c in
  ((9 <=? n) && (n <=? 13) || (n =? 32) || (n =? 160))%nat.

Fixpoint trim_start (s : string) : string :=
  match s with
  | String c rest => if is_space c then trim_start rest else s
  | EmptyString => EmptyString
  end.

Fixpoint trim_end (s : string) : string :=
  match s with
  | String c rest =>
      match trim_end rest with
      | EmptyString => if is_space c then EmptyString else String c EmptyString
      | rest' => String c rest'
      end
  | EmptyString => EmptyString
  end.

Definition trim (s : string) : string := trim_end (trim_start s).

(** [/^\d+$/.test(s)]: one or more characters, each of [0-9]. *)
Definition is_digit (c : ascii) : bool :=
  let n := nat_of_ascii c in ((48 <=? n) && (n <=? 57))%nat.

Fixpoint all_digits (s : string) : bool :=
  match s with
  | EmptyString => true
  | String c rest => is_digit c && all_digits rest
  end.

Definition test_digits (s : string) : bool :=
  match s with
  | EmptyString => false
  | String _ _ => all_digits s
  end.

End Js.

(** ** The network *)

Module Net.

Inductive method : Type := HEAD | GET.

Record request : Type := Request { req_method : method; req_url : string }.

(** What the server reads of a [Response]: the status code and the body
    as [res.json()] parses it ([None] when parsing raises). *)
Record response : Type := Response { status : Z; body : option Js.value }.

(** A call of [fetch] either rejects (network failure, invalid URL,
    abort on timeout) or fulfils with a response. *)
Inductive outcome : Type :=
  | Rejected
  | Fulfilled (res : response).

(** The network answers a request given the log of earlier requests. *)
Definition network : Type := list request → request → outcome.

Section Fetch.
Variable net : network.

(** [timeoutFetch(url, { method }, timeout)]. *)
Definition timeoutFetch (m : method) (url : string) (log : list request)
  : outcome * list request :=
  let rq := Request m url in (net log rq, log ++ [rq]).

(** [res.ok]. *)
Definition ok (res : response) : bool :=
  (200 <=? status res) && (status res <=? 299).

(** [fetchJson(url, opts, timeout)]: [None] when it raises (rejected
    fetch, status outside 200..299, or unparsable body). *)
Definition fetchJson (url : string) (log : list request)
  : option Js.value * list request :=
  match timeoutFetch GET url log with
  | (Rejected, log') => (None, log')
  | (Fulfilled res, log') => (if ok res then body res else None, log')
  end.
End Fetch.

(** A network on which every request fails. *)
Definition dead : network := λ _ _, Rejected.

End Net.

(** ** The endpoint resolver *)

Module Resolver.
Import Net.

(** The allowlist of OAuth candidate endpoints. *)
Definition ENDPOINT_CANDIDATES : gmap string (list string) :=
  <["authorize" := [ "https://authorize.roblox.com/oauth/authorize";
                     "https://www.roblox.com/oauth/authorize";
                     "https://apis.roblox.com/oauth/v1/authorize" ]]>
  (<["token" := [ "https://authorize.roblox.com/oauth/token";
                  "https://www.roblox.com/oauth/token";
                  "https://apis.roblox.com/oauth/v1/token" ]]>
  (<["userinfo" := [ "https://authorize.roblox.com/oauth/v1/userinfo";
                     "https://www.roblox.com/oauth/userinfo";
                     "https://apis.roblox.com/oauth/v1/userinfo" ]]> ∅)).

(** The mutable state a call can touch: the [resolved] cache and the log
    of requests sent to the network. *)
Record state : Type := State {
  resolved : gmap string string;
  log : list request
}.

(** The state of a fresh process: [const resolved = {}]. *)
Definition init : state := State ∅ [].

(** A call either returns a URL or throws an [Error]. *)
Inductive result : Type :=
  | Return (url : string)
  | Throw (message : string).

(** [res && res.status && res.status < 500]. *)
Definition below_500 (res : response) : bool :=
  negb (status res =? 0) && (status res <? 500).

Definition envKey (name : string) : string :=
  if String.eqb name "authorize" then "OAUTH_AUTHORIZE_URL"
  else if String.eqb name "token" then "OAUTH_TOKEN_URL"
  else "OAUTH_USERINFO_URL".

Section Resolve.
Variable net : network.
Variable env : gmap string string.
Variable candidates : gmap string (list string).

(** [probeUrl(url)]: a response to HEAD settles the probe; GET is tried
    only when the HEAD request raised. *)
Definition probeUrl (url : string) (log : list request)
  : bool * list request :=
  match timeoutFetch net HEAD url log with
  | (Fulfilled res, log1) => (below_500 res, log1)
  | (Rejected, log1) =>
      match timeoutFetch net GET url log1 with
      | (Fulfilled res2, log2) => (below_500 res2, log2)
      | (Rejected, log2) => (false, log2)
      end
  end.

(** The [for (const candidate of list)] loop; [Some c] when the loop
    returns candidate [c], [None] when it runs to its end. *)
Fixpoint probe_loop (name : string) (list : list string) (st : state)
  : option string * state :=
  match list with
  | [] => (None, st)
  | candidate :: rest =>
      let '(ok, log') := probeUrl candidate (log st) in
      if ok
      then (Some candidate, State (<[name := candidate]> (resolved st)) log')
      else probe_loop name rest (State (resolved st) log')
  end.

Definition resolveEndpoint (name : string) (st : state) : result * state :=
  match Js.truthy_string (env !! envKey name) with
  | Some override =>
      (Return override, State (<[name := override]> (resolved st)) (log st))
  | None =>
      match Js.truthy_string (resolved st !! name) with
      | Some url => (Return url, st)
      | None =>
          let list := default [] (candidates !! name) in
          match probe_loop name list st with
          | (Some candidate, st') => (Return candidate, st')
          | (None, st') =>
              match Js.truthy_string (head list) with
              | Some first =>
                  (Return first,
                   State (<[name := first]> (resolved st')) (log st'))
              | None =>
                  (Throw ("No candidates configured for endpoint " +:+ name),
                   st')
              end
          end
      end
  end.

(** A run of calls, one after the other. *)
Definition run_calls (names : list string) (st : state) : state :=
  foldl (λ s name, (resolveEndpoint name s).2) st names.

(** The states a process can be in: the fresh state, and the state
    after any call. *)
Inductive process_state : state → Prop :=
  | process_init : process_state init
  | process_call st name :
      process_state st → process_state (resolveEndpoint name st).2.

(** *** Reachability, as the specification words it

    A candidate is reachable when a response with a status code below
    the server-error threshold is received: to the HEAD request, or,
    when the HEAD request failed without a response, to the GET request
    that follows it. *)
Definition responds_below_500 (log : list request) (m : method)
    (url : string) : Prop :=
  ∃ res, net log (Request m url) = Fulfilled res ∧ status res < 500.

Inductive candidate_reachable (log : list request) (url : string) : Prop :=
  | reachable_by_head :
      responds_below_500 log HEAD url → candidate_reachable log url
  | reachable_by_get :
      net log (Request HEAD url) = Rejected →
      responds_below_500 (log ++ [Request HEAD url]) GET url →
      candidate_reachable log url.

(** The requests one probe of [url] sends. *)
Definition probe_requests (log : list request) (url : string)
  : list request :=
  Request HEAD url ::
  match net log (Request HEAD url) with
  | Rejected => [Request GET url]
  | Fulfilled _ => []
  end.

(** [all_unreachable urls log log']: probed one after the other from
    [log], no candidate of [urls] is reachable, and the log ends as
    [log']. *)
Inductive all_unreachable
  : list string → list request → list request → Prop :=
  | unreachable_nil log : all_unreachable [] log log
  | unreachable_cons url urls log log' :
      ¬ candidate_reachable log url →
      all_unreachable urls (log ++ probe_requests log url) log' →
      all_unreachable (url :: urls) log log'.

(** Responses carry HTTP status codes (100 to 599), never 0. *)
Definition http_statuses : Prop :=
  ∀ log rq res, net log rq = Fulfilled res → status res ≠ 0.

(** The candidates configured for an operation are URLs, none of them
    the empty string. *)
Definition candidates_are_urls (name : string) : Prop :=
  Forall (λ url, url ≠ EmptyString) (default [] (candidates !! name)).

(** The override configured for an operation, if any. *)
Definition override (name : string) : option string :=
  Js.truthy_string (env !! envKey name).
End Resolve.

(** *** Sample configurations *)

(** Every HEAD request fails; GET is answered, with 404, only by the
    second authorize candidate. *)
Definition net_second_by_get : network :=
  λ _ rq,
    match req_method rq with
    | HEAD => Rejected
    | GET =>
        if String.eqb (req_url rq) "https://www.roblox.com/oauth/authorize"
        then Fulfilled (Response 404 None)
        else Rejected
    end.

Definition env_token_override : gmap string string :=
  {[ "OAUTH_TOKEN_URL" := "https://example.test/oauth/token" ]}.

End Resolver.

(** ** The games query, [GET /api/games] *)

Module Games.
Import Net.
Import Js.

Infix "|||" := Js.or (at level 50, left associativity).
Infix "&&&" := Js.and (at level 40, left associativity).

(** The object literal each strategy builds for one upstream element. *)
Record game : Type := Game {
  id : value;
  name : value;
  creator : value;
  thumbnail : value;
  playing : value;
  visits : value
}.

(** The properties [res.json] writes for a game: [JSON.stringify] leaves
    out a property whose value is [undefined]. *)
Definition to_json (g : game) : list (string * value) :=
  List.filter (λ kv, negb (is_undefined kv.2))
    [ ("id", id g); ("name", name g); ("creator", creator g);
      ("thumbnail", thumbnail g); ("playing", playing g);
      ("visits", visits g) ].

(** The callbacks passed to [map]; [None] when reading a property of the
    element raises (the element is [null]). *)

(** Strategy 1, [games/list]. *)
Definition normalize_list (g : value) : option game :=
  if nullish g then None else
  Some {|
    id := field g "id" ||| field g "universeId" ||| field g "placeId"
          ||| field g "assetId";
    name := field g "name" ||| field g "title" ||| VStr EmptyString;
    creator := (field g "creator" &&& field (field g "creator") "name")
               ||| field g "creatorName" ||| VStr "Unknown";
    thumbnail := field g "iconUrl" ||| field g "thumbnailUrl" ||| VNull;
    playing := field g "playing" ||| field g "currentPlayers" ||| VNull;
    visits := field g "visits" ||| VNull
  |}.

(** Strategy 2, [games/sorts] then [games?sortToken=]. *)
Definition normalize_sorted (g : value) : option game :=
  if nullish g then None else
  Some {|
    id := field g "id" ||| field g "universeId";
    name := field g "name";
    creator := opt_field (field g "creator") "name" ||| VStr "Unknown";
    thumbnail := field g "iconUrl" ||| VNull;
    playing := field g "playing" ||| VNull;
    visits := field g "visits" ||| VNull
  |}.

(** Strategy 3, [multiget-place-details] then [games?universeIds=]. *)
Definition normalize_universe (g : value) : option game :=
  if nullish g then None else
  Some {|
    id := field g "id";
    name := field g "name";
    creator := opt_field (field g "creator") "name" ||| VStr "Unknown";
    thumbnail := field g "iconUrl" ||| VNull;
    playing := field g "playing" ||| VNull;
    visits := field g "visits" ||| VNull
  |}.

(** [if (Array.isArray(r.data) && r.data.length) games = r.data.map(f)]
    inside a [try] whose [catch] only logs: the new value of [games],
    which stays [[]] when [r.data] or the callback raises. *)
Definition mapped_data (f : value → option game) (r : value) : list game :=
  if nullish r then [] else
  match field r "data" with
  | VArr (g :: gs) => default [] (mapM f (g :: gs))
  | _ => []
  end.

(** [req.query] as the handler reads it: [query] is a string or missing,
    and [limit] is given by [Number(req.query.limit)], [None] for NaN. *)
Record req_query : Type := ReqQuery {
  req_query_query : option string;
  req_query_limit : option Z
}.

(** The JSON reply: the status code and the body's properties, [error]
    being present only in the reply of the outer [catch]. *)
Record reply : Type := Reply {
  reply_status : Z;
  query : string;
  limit : Z;
  data : list game;
  error : option string
}.

Definition sortsUrl : string :=
  "https://games.roblox.com/v1/games/sorts?model.gameSortsContext=GamesDefaultSorts".

Section Handler.
Variable net : network.
(** The builtin [encodeURIComponent], on strings. *)
Variable encodeURIComponent : string → string.

Definition listUrl (q : string) (limit : Z) : string :=
  "https://games.roblox.com/v1/games/list?keyword=" +:+ encodeURIComponent q
  +:+ "&limit=" +:+ pretty limit.

Definition sortedUrl (token : value) (limit : Z) : string :=
  "https://games.roblox.com/v1/games?sortToken="
  +:+ encodeURIComponent (to_string token) +:+ "&limit=" +:+ pretty limit.

Definition placeDetailsUrl (placeId : string) : string :=
  "https://games.roblox.com/v1/games/multiget-place-details?placeIds="
  +:+ encodeURIComponent placeId.

Definition universeUrl (universeId : value) : string :=
  "https://games.roblox.com/v1/games?universeIds="
  +:+ encodeURIComponent (to_string universeId).

(** Each strategy returns the value of [games] after its [try] block
    (entered with [games = []]) and the extended request log. *)

Definition strategy1 (q : string) (limit : Z) (log : list request)
  : list game * list request :=
  match fetchJson net (listUrl q limit) log with
  | (Some r, log1) => (mapped_data normalize_list r, log1)
  | (None, log1) => ([], log1)
  end.

Definition strategy2 (limit : Z) (log : list request)
  : list game * list request :=
  match fetchJson net sortsUrl log with
  | (Some sorts, log1) =>
      let token :=
        opt_field (opt_index0 (opt_field sorts "sorts")) "token" in
      if truthy token then
        match fetchJson net (sortedUrl token limit) log1 with
        | (Some list, log2) => (mapped_data normalize_sorted list, log2)
        | (None, log2) => ([], log2)
        end
      else ([], log1)
  | (None, log1) => ([], log1)
  end.

Definition strategy3 (q : string) (log : list request)
  : list game * list request :=
  let placeId := q in
  match fetchJson net (placeDetailsUrl placeId) log with
  | (Some (VArr (place :: _)), log1) =>
      if truthy (place &&& field place "universeId") then
        match fetchJson net (universeUrl (field place "universeId")) log1 with
        | (Some byUniverse, log2) =>
            (mapped_data normalize_universe byUniverse, log2)
        | (None, log2) => ([], log2)
        end
      else ([], log1)
  | (_, log1) => ([], log1)
  end.

(** [games.length] is zero. *)
Definition is_empty (games : list game) : bool :=
  match games with
  | [] => true
  | _ :: _ => false
  end.

(** [Math.min(Number(req.query.limit) || 25, 100)]. *)
Definition limit_of (rq : req_query) : Z :=
  Z.min (match req_query_limit rq with
         | Some n => if n =? 0 then 25 else n
         | None => 25
         end) 100.

(** [(req.query.query || '').trim()]. *)
Definition q_of (rq : req_query) : string :=
  trim (default EmptyString (truthy_string (req_query_query rq))).

(** [!games.length && q && /^\d+$/.test(q)]. *)
Definition wants_place_lookup (games : list game) (q : string) : bool :=
  is_empty games && negb (String.eqb q EmptyString) && test_digits q.

(** The state of the handler after the blocks of strategies 1 and 2. *)
Definition after_sorts (q : string) (limit : Z) (log : list request)
  : list game * list request :=
  let '(games, log1) := strategy1 q limit log in
  if is_empty games then strategy2 limit log1 else (games, log1).

(** The state of the handler after the block of strategy 3. *)
Definition after_place_lookup (q : string) (limit : Z) (log : list request)
  : list game * list request :=
  let '(games, log2) := after_sorts q limit log in
  if wants_place_lookup games q then strategy3 q log2 else (games, log2).

(** The handler.  Inside the outer [try] only the three guarded blocks
    and [res.json] run, none of which raises on an upstream failure, so
    the reply of the outer [catch] (status 500, with [error]) is never
    built from the network's behaviour. *)
Definition handler (rq : req_query) (log : list request)
  : reply * list request :=
  let limit := limit_of rq in
  let q := q_of rq in
  let '(games, log') := after_place_lookup q limit log in
  (Reply 200 q limit games None, log').
End Handler.

(** Every request of the list is a GET request. *)
Definition all_get (reqs : list request) : Prop :=
  Forall (λ rq, req_method rq = GET) reqs.

(** *** Alias tables

    The chains of [||] read as data: a canonical field is given by an
    ordered list of upstream property paths and, for most fields, a
    default. *)

Inductive strategy : Type := ListSearch | SortedListing | PlaceLookup.

Definition normalize (s : strategy) : value → option game :=
  match s with
  | ListSearch => normalize_list
  | SortedListing => normalize_sorted
  | PlaceLookup => normalize_universe
  end.

(** [from_upstream net s games]: [games] is the image, element by
    element, of the whole [data] array of a body that [fetchJson]
    returned, under the callback of strategy [s]. *)
Definition from_upstream (net : network) (s : strategy) (games : list game)
  : Prop :=
  ∃ url log body elems,
    (fetchJson net url log).1 = Some body
    ∧ field body "data" = VArr elems
    ∧ mapM (normalize s) elems = Some games.

(** Every call of [fetchJson] raises: the upstream is down, answers with
    a status outside 200..299, or sends bodies that do not parse. *)
Definition upstream_fails (net : network) : Prop :=
  ∀ url log, (fetchJson net url log).1 = None.

(** The value at a property path, [undefined] as soon as a step is
    missing. *)
Definition at_path (g : value) (path : list string) : value :=
  foldl opt_field g path.

(** The first alias whose value is truthy, else the default. *)
Definition pick (g : value) (aliases : list (list string)) (dflt : value)
  : value :=
  default dflt (List.find truthy (map (at_path g) aliases)).

Definition creator_aliases (s : strategy) : list (list string) :=
  match s with
  | ListSearch => [["creator"; "name"]; ["creatorName"]]
  | _ => [["creator"; "name"]]
  end.

Definition thumbnail_aliases (s : strategy) : list (list string) :=
  match s with
  | ListSearch => [["iconUrl"]; ["thumbnailUrl"]]
  | _ => [["iconUrl"]]
  end.

Definition playing_aliases (s : strategy) : list (list string) :=
  match s with
  | ListSearch => [["playing"]; ["currentPlayers"]]
  | _ => [["playing"]]
  end.

Definition visits_aliases : list (list string) := [["visits"]].

(** The identifier has no default: when no alias is truthy it is the
    value of the last alias, [undefined] when that is missing. *)
Definition id_aliases (s : strategy) : list (list string) :=
  match s with
  | ListSearch => [["id"]; ["universeId"]; ["placeId"]]
  | SortedListing => [["id"]]
  | PlaceLookup => []
  end.

Definition id_last_alias (s : strategy) : list string :=
  match s with
  | ListSearch => ["assetId"]
  | SortedListing => ["universeId"]
  | PlaceLookup => ["id"]
  end.

(** *** Sample upstreams and payloads *)

(** [encodeURIComponent] on strings of unreserved characters (letters,
    digits and [- _ . ! ~ * ' ( )]), which it leaves as they are. *)
Definition encode_unreserved : string → string := λ s, s.

(** An upstream whose list endpoint answers the keyword [obby] with the
    given elements and where nothing else responds. *)
Definition net_list_answers (elems : list value) : network :=
  λ _ rq,
    if String.eqb (req_url rq)
         "https://games.roblox.com/v1/games/list?keyword=obby&limit=25"
    then Fulfilled (Response 200 (Some (VObj [("data", VArr elems)])))
    else Rejected.

(** An upstream where only the place-details lookup works: place [123]
    belongs to universe [9], whose single game is named [Test]. *)
Definition net_place_123 : network :=
  λ _ rq,
    if String.eqb (req_url rq)
         "https://games.roblox.com/v1/games/multiget-place-details?placeIds=123"
    then Fulfilled
           (Response 200 (Some (VArr [VObj [("universeId", VNum 9)]])))
    else if String.eqb (req_url rq)
              "https://games.roblox.com/v1/games?universeIds=9"
    then Fulfilled
           (Response 200
              (Some (VObj [("data",
                            VArr [VObj [("id", VNum 9);
                                        ("name", VStr "Test")]])])))
    else Rejected.

(** An element with a name and a player count of zero, and no
    identifier under any alias. *)
Definition payload_idle_unnamed_id : value :=
  VObj [("name", VStr "Blox"); ("playing", VNum 0)].

(** An element whose two live-activity aliases disagree. *)
Definition payload_two_counts : value :=
  VObj [("id", VNum 7); ("name", VStr "Blox"); ("playing", VNum 0);
        ("currentPlayers", VNum 5)].


End Games.

(** ** The sign-in flow: [/auth], [/auth/callback], [/auth/logout], [/api/me] *)

Module OAuth.
Import Net.
Import Js.
Import Resolver.

Infix "|||" := Js.or (at level 50, left associativity).

(** The constants read from the environment at start-up. *)
Record config : Type := Config {
  ROBLOX_CLIENT_ID : string;
  ROBLOX_CLIENT_SECRET : string;
  BASE_URL : string
}.

(** What the handlers keep in [req.session].  [oauth_state] is a string
    once [/auth] has run; the tokens are whatever the token endpoint
    sent, [undefined] when absent or deleted. *)
Record session : Type := Session {
  oauth_state : option string;
  roblox_token : value;
  roblox_id_token : value
}.

Definition fresh_session : session := Session None VUndefined VUndefined.

(** The requests that carry credentials: the form POST of the token
    exchange and the GET with an [Authorization] header.  They are
    answered by an oracle of their own and logged apart from the plain
    requests. *)
Inductive secure_request : Type :=
  | TokenPost (url : string) (form : list (string * string))
  | BearerGet (url : string) (authorization : string).

(** Such a request raises (the fetch or the reading of the body, with
    the error's message), or gives a status and the text of the body. *)
Inductive secure_outcome : Type :=
  | SecureRejected (message : string)
  | SecureFulfilled (status : Z) (text : string).

Definition secure_network : Type :=
  list secure_request → secure_request → secure_outcome.

(** [JSON.parse(text)]. *)
Inductive parsed : Type :=
  | Parsed (v : value)
  | SyntaxError (message : string).

(** The state shared by the requests of all sessions: the resolver's
    cache with the log of plain requests, and the log of requests with
    credentials. *)
Record app : Type := App {
  resolver : Resolver.state;
  secure_log : list secure_request
}.

Inductive reply : Type :=
  | Redirect (location : string)
  | Send (status : Z) (text : string)
  | Json (status : Z) (body : list (string * value)).


(** [res.ok], from the status. *)
Definition ok_status (status : Z) : bool :=
  (200 <=? status) && (status <=? 299).

Definition nonempty (s : string) : bool := negb (String.eqb s EmptyString).

(** [v?.toString?.()], for a [v] that holds no [toString] of its own. *)
Definition opt_toString (v : value) : value :=
  if nullish v then VUndefined else VStr (to_string v).

Section Handlers.
Variable net : network.
Variable env : gmap string string.
Variable candidates : gmap string (list string).
Variable secure_net : secure_network.
Variable cfg : config.
(** The builtins [encodeURIComponent] and [JSON.parse], [jwt.decode] of
    the jsonwebtoken package ([None] when it raises), and the message of
    the TypeError raised by reading a property of [null]. *)
Variable encodeURIComponent : string → string.
Variable JSON_parse : string → parsed.
Variable jwt_decode : value → option value.
Variable null_read_message : string.

Definition redirect_uri : string := BASE_URL cfg +:+ "/auth/callback".

(** [GET /auth]; [state] is the string drawn from [Math.random()]. *)
Definition auth (state : string) (s : session) (a : app)
  : reply * session * app :=
  if negb (nonempty (ROBLOX_CLIENT_ID cfg))
     || negb (nonempty (ROBLOX_CLIENT_SECRET cfg))
  then (Send 500 "Server not configured: missing client id/secret.", s, a)
  else
    let s1 := Session (Some state) (roblox_token s) (roblox_id_token s) in
    match resolveEndpoint net env candidates "authorize" (resolver a) with
    | (Return authEndpoint, rs) =>
        let scope := encodeURIComponent "openid profile" in
        let url :=
          authEndpoint +:+ "?client_id="
          +:+ encodeURIComponent (ROBLOX_CLIENT_ID cfg)
          +:+ "&response_type=code&redirect_uri="
          +:+ encodeURIComponent redirect_uri
          +:+ "&state=" +:+ state +:+ "&scope=" +:+ scope in
        (Redirect url, s1, App rs (secure_log a))
    | (Throw _, rs) =>
        (Send 500 "OAuth authorize endpoint not available.", s1,
         App rs (secure_log a))
    end.

Definition token_form (code : string) : list (string * string) :=
  [ ("grant_type", "authorization_code"); ("code", code);
    ("redirect_uri", redirect_uri);
    ("client_id", ROBLOX_CLIENT_ID cfg);
    ("client_secret", ROBLOX_CLIENT_SECRET cfg) ].

Definition invalid_oauth_response : string :=
  "Invalid OAuth response (missing code or bad state).".

(** [GET /auth/callback]; [code] and [state] are [req.query.code] and
    [req.query.state], each a string or missing. *)
Definition auth_callback (code state : option string) (s : session) (a : app)
  : reply * session * app :=
  match truthy_string code with
  | None => (Send 400 invalid_oauth_response, s, a)
  | Some code =>
      if negb (bool_decide (state = oauth_state s))
      then (Send 400 invalid_oauth_response, s, a)
      else
        match resolveEndpoint net env candidates "token" (resolver a) with
        | (Throw message, rs) =>
            (Send 500 ("OAuth token exchange error: " +:+ message), s,
             App rs (secure_log a))
        | (Return tokenEndpoint, rs) =>
            let rq := TokenPost tokenEndpoint (token_form code) in
            let a1 := App rs (secure_log a ++ [rq]) in
            match secure_net (secure_log a) rq with
            | SecureRejected message =>
                (Send 500 ("OAuth token exchange error: " +:+ message), s, a1)
            | SecureFulfilled status tokenText =>
                if negb (ok_status status)
                then (Send 500 ("Token exchange failed: " +:+ tokenText), s, a1)
                else
                  match JSON_parse tokenText with
                  | SyntaxError message =>
                      (Send 500 ("OAuth token exchange error: " +:+ message),
                       s, a1)
                  | Parsed tokenJson =>
                      if nullish tokenJson
                      then
                        (Send 500
                           ("OAuth token exchange error: "
                            +:+ null_read_message), s, a1)
                      else
                        let id_token := field tokenJson "id_token" in
                        (Redirect "/",
                         Session (oauth_state s)
                           (field tokenJson "access_token")
                           (if truthy id_token then id_token
                            else roblox_id_token s),
                         a1)
                  end
            end
        end
  end.

(** [GET /auth/logout]. *)
Definition auth_logout (s : session) : reply * session :=
  (Redirect "/", Session (oauth_state s) VUndefined VUndefined).

Definition headshotUrl (userId : value) : string :=
  "https://thumbnails.roblox.com/v1/users/avatar-headshot?userIds="
  +:+ encodeURIComponent (to_string userId)
  +:+ "&size=48x48&format=Png&isCircular=true".

(** The first block of [/api/me]: the user info from the userinfo
    endpoint, [null] when the block's [try] raised or was not entered. *)
Definition userinfo_from_endpoint (s : session) (a : app) : value * app :=
  if truthy (roblox_token s) then
    match resolveEndpoint net env candidates "userinfo" (resolver a) with
    | (Throw _, rs) => (VNull, App rs (secure_log a))
    | (Return userinfoEp, rs) =>
        let rq :=
          BearerGet userinfoEp ("Bearer " +:+ to_string (roblox_token s)) in
        let a1 := App rs (secure_log a ++ [rq]) in
        match secure_net (secure_log a) rq with
        | SecureRejected _ => (VNull, a1)
        | SecureFulfilled status text =>
            if ok_status status then
              match JSON_parse text with
              | Parsed j => (j, a1)
              | SyntaxError _ => (VNull, a1)
              end
            else (VNull, a1)
        end
    end
  else (VNull, a).

(** The second block: the decoded id token, when the first block gave
    nothing. *)
Definition userinfo_from_id_token (s : session) (userinfo : value) : value :=
  if negb (truthy userinfo) && truthy (roblox_id_token s) then
    match jwt_decode (roblox_id_token s) with
    | Some decoded => if truthy decoded then decoded else userinfo
    | None => userinfo
    end
  else userinfo.

(** The third block: the headshot from the thumbnails endpoint. *)
Definition headshot_from_thumbnails (userId headshot : value) (a : app)
  : value * app :=
  if negb (truthy headshot) && truthy userId then
    match fetchJson net (headshotUrl userId) (log (resolver a)) with
    | (Some th, log') =>
        (if nullish th then headshot
         else opt_field (opt_index0 (field th "data")) "imageUrl"
              ||| VStr EmptyString,
         App (State (resolved (resolver a)) log') (secure_log a))
    | (None, log') =>
        (headshot, App (State (resolved (resolver a)) log') (secure_log a))
    end
  else (headshot, a).

(** [GET /api/me].  A user info that is a JSON string is outside the
    model ([None]): its [sub] is a method strings inherit, not a
    value. *)
Definition api_me (s : session) (a : app) : option (reply * app) :=
  if negb (truthy (roblox_token s)) && negb (truthy (roblox_id_token s))
  then Some (Json 401 [("error", VStr "Not signed in")], a)
  else
    let '(userinfo, a1) := userinfo_from_endpoint s a in
    let userinfo := userinfo_from_id_token s userinfo in
    if negb (truthy userinfo)
    then Some (Json 500 [("error", VStr "Failed to retrieve user info")], a1)
    else
      match userinfo with
      | VStr _ => None
      | _ =>
          let userId :=
            field userinfo "sub" ||| field userinfo "user_id"
            ||| opt_toString (field userinfo "sub") in
          let headshot :=
            field userinfo "picture" ||| field userinfo "image"
            ||| VStr EmptyString in
          let '(headshot, a2) := headshot_from_thumbnails userId headshot a1 in
          let name :=
            field userinfo "name" ||| field userinfo "nickname"
            ||| field userinfo "preferred_username"
            ||| field userinfo "displayName" ||| field userinfo "username"
            ||| VStr "Unknown" in
          Some (Json 200 [("id", userId); ("name", name);
                          ("headshot", headshot)], a2)
      end.

(** A URL the configuration allows for an operation: its override or one
    of its candidates. *)
Definition allowed (name url : string) : Prop :=
  override env name = Some url ∨ url ∈ default [] (candidates !! name).

(** Every cached URL is allowed for its operation. *)
Definition cache_allowed (st : Resolver.state) : Prop :=
  ∀ name url, resolved st !! name = Some url → allowed name url.
End Handlers.

(** *** [encodeURIComponent] on the strings of the model

    Letters, digits and [- _ . ! ~ * ' ( )] stand for themselves; any
    other code unit is written as the percent-escaped bytes of its UTF-8
    encoding, one byte below 128 and two bytes from 128 to 255. *)

Definition is_unreserved (c : ascii) : bool :=
  let n := nat_of_ascii c in
  ((65 <=? n) && (n <=? 90) || (97 <=? n) && (n <=? 122)
   || (48 <=? n) && (n <=? 57)
   || (n =? 45) || (n =? 95) || (n =? 46) || (n =? 33) || (n =? 126)
   || (n =? 42) || (n =? 39) || (n =? 40) || (n =? 41))%nat.

Definition hex_digit (n : nat) : ascii :=
  ascii_of_nat (if (n <? 10)%nat then 48 + n else 55 + n).

Definition percent_byte (n : nat) : string :=
  String (ascii_of_nat 37)
    (String (hex_digit (n / 16)) (String (hex_digit (n mod 16)) EmptyString)).

Definition encode_unit (c : ascii) : string :=
  let n := nat_of_ascii c in
  if is_unreserved c then String c EmptyString
  else if (n <? 128)%nat then percent_byte n
  else percent_byte (192 + n / 64) +:+ percent_byte (128 + n mod 64).

Fixpoint encodeURIComponent (s : string) : string :=
  match s with
  | EmptyString => EmptyString
  | String c rest => encode_unit c +:+ encodeURIComponent rest
  end.

(** *** A sample server *)

Definition sample_config : config :=
  Config "client-1" "secret-1" "https://rblx.example".

(** Every request with credentials is answered 200: the token exchange
    with the text [granted], the bearer GET with the text [profile]. *)
Definition sample_secure_net : secure_network :=
  λ _ rq,
    match rq with
    | TokenPost _ _ => SecureFulfilled 200 "granted"
    | BearerGet _ _ => SecureFulfilled 200 "profile"
    end.

(** [JSON.parse] on the two texts of the sample: a token response and a
    user info. *)
Definition sample_parse : string → parsed :=
  λ text,
    if String.eqb text "granted"
    then Parsed (VObj [("access_token", VStr "token-1")])
    else if String.eqb text "profile"
    then Parsed (VObj [("sub", VStr "42"); ("name", VStr "Ann")])
    else SyntaxError "Unexpected token".

(** [jwt.decode] on tokens that are not JWTs: [null]. *)
Definition sample_decode : value → option value := λ _, Some VNull.


(** The handlers of a server with the candidates of the source, no
    override, a network on which every plain request fails, and the
    sample answers for requests with credentials. *)
Definition sample_auth : string → session → app → reply * session * app :=
  auth dead ∅ ENDPOINT_CANDIDATES sample_config encodeURIComponent.

Definition sample_callback
  : option string → option string → session → app → reply * session * app :=
  auth_callback dead ∅ ENDPOINT_CANDIDATES sample_secure_net sample_config
    sample_parse "Cannot read properties of null".

Definition sample_me : session → app → option (reply * app) :=
  api_me dead ∅ ENDPOINT_CANDIDATES sample_secure_net encodeURIComponent
    sample_parse sample_decode.

Definition sample_app : app := App init [].

End OAuth.

(** * Properties of the endpoint resolver *)

Module ResolverProps.
Import Net Resolver.

Lemma truthy_string_Some (o : option string) (u : string) :
  Js.truthy_string o = Some u ↔ o = Some u ∧ u ≠ EmptyString.
Proof.
  unfold Js.truthy_string. destruct o as [s|].
  - destruct (String.eqb s EmptyString) eqn:E.
    + apply String.eqb_eq in E. subst s. split; [done|].
      by intros [[= <-] ?].
    + apply String.eqb_neq in E. split.
      * by intros [= <-].
      * by intros [[= <-] _].
  - split; [done | by intros [? _]].
Qed.

Lemma truthy_string_None (o : option string) :
  Js.truthy_string o = None ↔ o = None ∨ o = Some EmptyString.
Proof.
  unfold Js.truthy_string. destruct o as [s|].
  - destruct (String.eqb s EmptyString) eqn:E.
    + apply String.eqb_eq in E. subst s. split; auto.
    + apply String.eqb_neq in E. split; [done|].
      intros [?|[= ?]]; done.
  - split; auto.
Qed.

Lemma state_eta (st : state) : State (resolved st) (log st) = st.
Proof. by destruct st. Qed.

Section WithConfiguration.
Variable net : network.
Variable env : gmap string string.
Variable candidates : gmap string (list string).

Local Abbreviation probeUrl := (probeUrl net).
Local Abbreviation probe_loop := (probe_loop net).
Local Abbreviation resolveEndpoint := (resolveEndpoint net env candidates).
Local Abbreviation run_calls := (run_calls net env candidates).
Local Abbreviation process_state := (process_state net env candidates).
Local Abbreviation candidate_reachable := (candidate_reachable net).
Local Abbreviation probe_requests := (probe_requests net).
Local Abbreviation all_unreachable := (all_unreachable net).
Local Abbreviation override := (override env).

(** *** One probe *)

Lemma probeUrl_log url log :
  (probeUrl url log).2 = log ++ probe_requests log url.
Proof.
  unfold Resolver.probeUrl, Resolver.probe_requests, timeoutFetch; simpl.
  destruct (net log (Request HEAD url)); simpl.
  - destruct (net _ (Request GET url)); simpl; by rewrite <- app_assoc.
  - done.
Qed.

Lemma probe_requests_url log url :
  Forall (λ rq, req_url rq = url) (probe_requests log url).
Proof.
  unfold Resolver.probe_requests.
  destruct (net log _); repeat constructor.
Qed.

Lemma below_500_lt res : below_500 res = true → status res < 500.
Proof. unfold below_500. intros [_ H]%andb_prop. lia. Qed.

Lemma probeUrl_true_reachable url log :
  (probeUrl url log).1 = true → candidate_reachable log url.
Proof.
  unfold Resolver.probeUrl, timeoutFetch; simpl.
  destruct (net log (Request HEAD url)) as [|res] eqn:Hhead; simpl.
  - destruct (net _ (Request GET url)) as [|res2] eqn:Hget; simpl; [done|].
    intros H%below_500_lt. apply reachable_by_get; [done|]. by exists res2.
  - intros H%below_500_lt. apply reachable_by_head. by exists res.
Qed.

Lemma reachable_probeUrl_true url log :
  http_statuses net →
  candidate_reachable log url → (probeUrl url log).1 = true.
Proof.
  intros Hhttp Hreach.
  unfold Resolver.probeUrl, timeoutFetch; simpl.
  destruct Hreach as [(res & Hres & Hlt) | Hrej (res & Hres & Hlt)].
  - rewrite Hres; simpl. unfold below_500.
    apply Hhttp in Hres. apply andb_true_intro. split; [|lia].
    apply negb_true_iff. lia.
  - rewrite Hrej, Hres; simpl. unfold below_500.
    apply Hhttp in Hres. apply andb_true_intro. split; [|lia].
    apply negb_true_iff. lia.
Qed.

Lemma unreachable_probeUrl_false url log :
  ¬ candidate_reachable log url → (probeUrl url log).1 = false.
Proof.
  intros Hno. destruct (probeUrl url log).1 eqn:Hp; [|done].
  by apply probeUrl_true_reachable in Hp.
Qed.

(** *** The loop over the candidates *)

Lemma probe_loop_unreachable name urls st log' :
  all_unreachable urls (log st) log' →
  probe_loop name urls st = (None, State (resolved st) log').
Proof.
  revert st. induction urls as [|url urls IH]; intros st Hall.
  - inversion Hall; subst. simpl. by rewrite state_eta.
  - inversion Hall as [|? ? ? ? Hno Hrest]; subst. simpl.
    pose proof (unreachable_probeUrl_false _ _ Hno) as Hp.
    pose proof (probeUrl_log url (log st)) as Hl.
    destruct (probeUrl url (log st)) as [ok l1]; simpl in *; subst.
    by rewrite (IH (State (resolved st) _)).
Qed.

Lemma probe_loop_app_reachable name pre c post st log' :
  http_statuses net →
  all_unreachable pre (log st) log' →
  candidate_reachable log' c →
  probe_loop name (pre ++ c :: post) st
  = (Some c, State (<[name := c]> (resolved st))
                   (log' ++ probe_requests log' c)).
Proof.
  intros Hhttp. revert st.
  induction pre as [|url pre IH]; intros st Hall Hc.
  - inversion Hall; subst. simpl.
    pose proof (reachable_probeUrl_true _ _ Hhttp Hc) as Hp.
    pose proof (probeUrl_log c (log st)) as Hl.
    destruct (probeUrl c (log st)) as [ok l1]; simpl in *; by subst.
  - inversion Hall as [|? ? ? ? Hno Hrest]; subst. simpl.
    pose proof (unreachable_probeUrl_false _ _ Hno) as Hp.
    pose proof (probeUrl_log url (log st)) as Hl.
    destruct (probeUrl url (log st)) as [ok l1]; simpl in *; subst.
    by rewrite (IH (State (resolved st) _)).
Qed.

Lemma all_unreachable_log urls log log' :
  all_unreachable urls log log' →
  ∃ reqs, log' = log ++ reqs ∧ Forall (λ rq, req_url rq ∈ urls) reqs.
Proof.
  induction 1 as [log | url urls log log' Hno Hrest (reqs & -> & Hin)].
  - exists []. by rewrite app_nil_r.
  - exists (probe_requests log url ++ reqs). split.
    + by rewrite app_assoc.
    + apply Forall_app. split.
      * eapply Forall_impl; [apply probe_requests_url|].
        intros rq ->. left.
      * eapply Forall_impl; [exact Hin|]. intros rq ?. by right.
Qed.

(** The loop either returns a candidate of the list, which it caches,
    or leaves the cache as it was. *)
Lemma probe_loop_cache name urls st :
  match probe_loop name urls st with
  | (Some c, st') => c ∈ urls ∧ resolved st' = <[name := c]> (resolved st)
  | (None, st') => resolved st' = resolved st
  end.
Proof.
  revert st. induction urls as [|url urls IH]; intros st; simpl; [done|].
  destruct (probeUrl url (log st)) as [[] l1]; simpl.
  - split; [left | done].
  - specialize (IH (State (resolved st) l1)).
    destruct (probe_loop name urls _) as [[c|] st']; simpl in *.
    + destruct IH. split; [by right | done].
    + done.
Qed.

(** *** What a call does to the cache *)

Lemma resolve_return name st url st' :
  resolveEndpoint name st = (Return url, st') →
  resolved st' = <[name := url]> (resolved st)
  ∧ (override name = Some url
     ∨ override name = None
       ∧ (resolved st !! name = Some url ∧ url ≠ EmptyString ∧ st' = st
          ∨ url ∈ default [] (candidates !! name))).
Proof.
  unfold Resolver.resolveEndpoint, Resolver.override.
  destruct (Js.truthy_string (env !! envKey name)) as [o|] eqn:Ho.
  { intros [= <- <-]. auto. }
  destruct (Js.truthy_string (resolved st !! name)) as [u|] eqn:Hc.
  { intros [= <- <-]. apply truthy_string_Some in Hc as [Hc ?].
    split; [by rewrite insert_id | auto 6]. }
  pose proof (probe_loop_cache name (default [] (candidates !! name)) st)
    as Hloop.
  destruct (probe_loop name _ st) as [[c|] st1].
  { intros [= <- <-]. destruct Hloop as [Hin Hres]. auto. }
  destruct (Js.truthy_string (head _)) as [first|] eqn:Hf; [|done].
  intros [= <- <-]. apply truthy_string_Some in Hf as [Hf ?]. simpl.
  split; [by rewrite Hloop|].
  right. split; [done|]. right. by apply head_Some_elem_of.
Qed.

Lemma resolve_return_url name st url st' :
  candidates_are_urls candidates name →
  resolveEndpoint name st = (Return url, st') →
  url ≠ EmptyString.
Proof.
  intros Hurls Hcall.
  apply resolve_return in Hcall as [_ [Ho|[_ [(_ & ? & _)|Hin]]]]; [|done|].
  - by apply truthy_string_Some in Ho as [_ ?].
  - unfold Resolver.candidates_are_urls in Hurls.
    rewrite Forall_forall in Hurls. by apply Hurls.
Qed.

Lemma resolve_throw name st msg st' :
  resolveEndpoint name st = (Throw msg, st') →
  resolved st' = resolved st
  ∧ override name = None
  ∧ Js.truthy_string (head (default [] (candidates !! name))) = None.
Proof.
  unfold Resolver.resolveEndpoint, Resolver.override.
  destruct (Js.truthy_string (env !! envKey name)); [done|].
  destruct (Js.truthy_string (resolved st !! name)); [done|].
  pose proof (probe_loop_cache name (default [] (candidates !! name)) st)
    as Hloop.
  destruct (probe_loop name _ st) as [[c|] st1]; [done|].
  destruct (Js.truthy_string (head _)); [done|].
  by intros [= <- <-].
Qed.

Lemma resolve_other_key name st key :
  name ≠ key →
  resolved (resolveEndpoint name st).2 !! key = resolved st !! key.
Proof.
  intros Hne. unfold Resolver.resolveEndpoint.
  destruct (Js.truthy_string (env !! envKey name)); simpl.
  { by rewrite lookup_insert_ne. }
  destruct (Js.truthy_string (resolved st !! name)); [done|].
  pose proof (probe_loop_cache name (default [] (candidates !! name)) st)
    as Hloop.
  destruct (probe_loop name _ st) as [[c|] st1]; simpl.
  { destruct Hloop as [_ ->]. by rewrite lookup_insert_ne. }
  destruct (Js.truthy_string (head _)); simpl.
  - rewrite lookup_insert_ne; [|done]. by rewrite Hloop.
  - by rewrite Hloop.
Qed.

(** A call for an operation whose resolution is cached returns the
    cached URL and changes nothing, provided an override, if there is
    one, is that URL. *)
Lemma resolve_cached name st url :
  resolved st !! name = Some url →
  url ≠ EmptyString →
  (∀ o, override name = Some o → o = url) →
  resolveEndpoint name st = (Return url, st).
Proof.
  intros Hc Hne Ho. unfold Resolver.resolveEndpoint.
  unfold Resolver.override in Ho.
  destruct (Js.truthy_string (env !! envKey name)) as [o|].
  - rewrite (Ho o eq_refl), insert_id by done. by rewrite state_eta.
  - assert (Js.truthy_string (resolved st !! name) = Some url) as ->
      by by apply truthy_string_Some.
    done.
Qed.

Lemma run_calls_keeps_cached name url others st :
  resolved st !! name = Some url →
  url ≠ EmptyString →
  (∀ o, override name = Some o → o = url) →
  resolved (run_calls others st) !! name = Some url.
Proof.
  intros Hc Hne Ho. revert st Hc.
  induction others as [|other others IH]; intros st Hc; [done|].
  simpl. apply IH.
  destruct (decide (other = name)) as [->|Hother].
  - by rewrite (resolve_cached name st url).
  - by rewrite resolve_other_key.
Qed.

(** Every cached URL is the operation's override or one of its
    candidates. *)
Lemma process_state_cache st :
  process_state st →
  ∀ key url, resolved st !! key = Some url →
    override key = Some url ∨ url ∈ default [] (candidates !! key).
Proof.
  induction 1 as [|st name Hst IH]; intros key url.
  - simpl. by rewrite lookup_empty.
  - destruct (decide (name = key)) as [->|Hne].
    + destruct (resolveEndpoint key st) as [[u|msg] st'] eqn:Hcall; simpl.
      * apply resolve_return in Hcall as (-> & Hfrom).
        rewrite lookup_insert_eq. intros [= <-].
        destruct Hfrom as [?|[_ [(Hc & _)|?]]]; eauto.
      * apply resolve_throw in Hcall as [-> _]. apply IH.
    + rewrite resolve_other_key by done. apply IH.
Qed.

(** *** The claims about [resolveEndpoint] *)

(** C1. Resolution is memoized per process run.  When an override is
    configured for the operation, [resolveEndpoint] returns it at once,
    caches it and sends no request (the log is unchanged).  And once a
    call for an operation has returned a URL, by whichever path, every
    later call for that operation, whatever calls for other operations
    come in between, returns the same URL and leaves cache and log as
    they are: nothing is probed again. *)
Theorem resolve_memoized name st :
  candidates_are_urls candidates name →
  (∀ url, override name = Some url →
     resolveEndpoint name st
     = (Return url, State (<[name := url]> (resolved st)) (log st)))
  ∧ (∀ url st1 others,
       resolveEndpoint name st = (Return url, st1) →
       resolveEndpoint name (run_calls others st1)
       = (Return url, run_calls others st1)).
Proof.
  intros Hurls. split.
  - unfold Resolver.override, Resolver.resolveEndpoint. by intros url ->.
  - intros url st1 others Hcall.
    pose proof (resolve_return_url _ _ _ _ Hurls Hcall) as Hne.
    apply resolve_return in Hcall as [Hres Hfrom].
    assert (∀ o, override name = Some o → o = url) as Ho.
    { intros o Ho. destruct Hfrom as [H|[H _]]; congruence. }
    apply resolve_cached; [|done..].
    apply run_calls_keeps_cached; [|done..].
    rewrite Hres. apply lookup_insert_eq.
Qed.

(** C2. With no override and nothing cached, the candidates are probed
    in declared order and the first reachable one is returned and
    cached: if the list is [pre ++ c :: post], no candidate of [pre] is
    reachable and [c] is (a response with a status below 500, client
    errors included, to HEAD or, after a failed HEAD, to GET), the call
    returns [c], caches it, and the requests it sent all went to [pre]
    and [c]: nothing after [c] is probed. *)
Theorem first_reachable_candidate_wins name st pre c post log' :
  http_statuses net →
  override name = None →
  Js.truthy_string (resolved st !! name) = None →
  candidates !! name = Some (pre ++ c :: post) →
  all_unreachable pre (log st) log' →
  candidate_reachable log' c →
  resolveEndpoint name st
  = (Return c, State (<[name := c]> (resolved st))
                     (log' ++ probe_requests log' c))
  ∧ ∃ reqs, log' ++ probe_requests log' c = log st ++ reqs
            ∧ Forall (λ rq, req_url rq ∈ pre ++ [c]) reqs.
Proof.
  intros Hhttp Ho Hc Hlist Hpre Hreach. split.
  - unfold Resolver.resolveEndpoint. unfold Resolver.override in Ho.
    rewrite Ho, Hc, Hlist. simpl.
    by rewrite (probe_loop_app_reachable name pre c post st log').
  - apply all_unreachable_log in Hpre as (reqs & -> & Hin).
    exists (reqs ++ probe_requests (log st ++ reqs) c). split.
    + by rewrite app_assoc.
    + apply Forall_app. split.
      * eapply Forall_impl; [exact Hin|]. intros rq ?.
        apply elem_of_app. by left.
      * eapply Forall_impl; [apply probe_requests_url|].
        intros rq ->. apply elem_of_app. right. left.
Qed.

(** C3. With no override and nothing cached, when the candidate list is
    not empty and no candidate's probe succeeds, the call does not
    throw: it returns and caches the first candidate of the list. *)
Theorem fallback_to_first_candidate name st first rest log' :
  override name = None →
  Js.truthy_string (resolved st !! name) = None →
  candidates !! name = Some (first :: rest) →
  first ≠ EmptyString →
  all_unreachable (first :: rest) (log st) log' →
  resolveEndpoint name st
  = (Return first, State (<[name := first]> (resolved st)) log').
Proof.
  intros Ho Hc Hlist Hne Hall.
  unfold Resolver.resolveEndpoint. unfold Resolver.override in Ho.
  rewrite Ho, Hc, Hlist.
  cbv zeta. change (default [] (Some (first :: rest))) with (first :: rest).
  rewrite (probe_loop_unreachable name (first :: rest) st log') by done.
  assert (Js.truthy_string (head (first :: rest)) = Some first) as ->
    by by apply truthy_string_Some.
  done.
Qed.

(** C4. In any state of the process, a call throws if and only if the
    operation has no override and its candidate list is empty.  The
    statement holds for every network: whatever the probes do, failing
    requests included, nothing else makes the call throw. *)
Theorem throws_iff_nothing_configured name st :
  candidates_are_urls candidates name →
  process_state st →
  (∃ msg, (resolveEndpoint name st).1 = Throw msg)
  ↔ override name = None ∧ default [] (candidates !! name) = [].
Proof.
  intros Hurls Hst. split.
  - intros [msg Hthrow].
    destruct (resolveEndpoint name st) as [r st'] eqn:Hcall.
    simpl in Hthrow; subst r.
    apply resolve_throw in Hcall as (_ & Ho & Hhead). split; [done|].
    unfold Resolver.candidates_are_urls in Hurls.
    destruct (default [] (candidates !! name)) as [|first rest]; [done|].
    apply Forall_cons in Hurls as [Hne _].
    apply truthy_string_None in Hhead as [?|[= ?]]; done.
  - intros [Ho Hlist].
    assert (resolved st !! name = None) as Hc.
    { destruct (resolved st !! name) as [url|] eqn:Hc; [|done].
      apply (process_state_cache st Hst) in Hc as [Hc|Hc].
      - congruence.
      - rewrite Hlist in Hc. by apply elem_of_nil in Hc. }
    exists ("No candidates configured for endpoint " +:+ name).
    unfold Resolver.resolveEndpoint. unfold Resolver.override in Ho.
    by rewrite Ho, Hc, Hlist.
Qed.

End WithConfiguration.

(** *** The claims at sample configurations *)

Lemma dead_unreachable log url : ¬ candidate_reachable dead log url.
Proof. intros [(res & Hres & _) | _ (res & Hres & _)]; discriminate. Qed.

Lemma net_second_by_get_statuses : http_statuses net_second_by_get.
Proof.
  intros log rq res. unfold net_second_by_get.
  destruct (req_method rq); [done|].
  destruct (String.eqb _ _); [|done].
  intros [= <-]. simpl. lia.
Qed.

Lemma resolve_memoized_witness :
  candidates_are_urls ENDPOINT_CANDIDATES "token"
  ∧ (∀ url, override env_token_override "token" = Some url →
       resolveEndpoint dead env_token_override ENDPOINT_CANDIDATES "token" init
       = (Return url, State (<["token" := url]> (resolved init)) (log init)))
  ∧ (∀ url st1 others,
       resolveEndpoint dead env_token_override ENDPOINT_CANDIDATES "token" init
       = (Return url, st1) →
       resolveEndpoint dead env_token_override ENDPOINT_CANDIDATES "token"
         (run_calls dead env_token_override ENDPOINT_CANDIDATES others st1)
       = (Return url,
          run_calls dead env_token_override ENDPOINT_CANDIDATES others st1)).
Proof.
  assert (candidates_are_urls ENDPOINT_CANDIDATES "token") as Hurls.
  { vm_compute. repeat constructor; discriminate. }
  split; [exact Hurls|].
  exact (resolve_memoized dead env_token_override ENDPOINT_CANDIDATES
           "token" init Hurls).
Defined.

Lemma first_reachable_candidate_wins_witness :
  let first := "https://authorize.roblox.com/oauth/authorize" in
  let second := "https://www.roblox.com/oauth/authorize" in
  let third := "https://apis.roblox.com/oauth/v1/authorize" in
  resolveEndpoint net_second_by_get ∅ ENDPOINT_CANDIDATES "authorize" init
  = (Return second,
     State (<["authorize" := second]> ∅)
           [Request HEAD first; Request GET first;
            Request HEAD second; Request GET second])
  ∧ ∃ reqs,
      [Request HEAD first; Request GET first;
       Request HEAD second; Request GET second] = [] ++ reqs
      ∧ Forall (λ rq, req_url rq ∈ [first] ++ [second]) reqs.
Proof.
  intros first second third.
  apply (first_reachable_candidate_wins net_second_by_get ∅
           ENDPOINT_CANDIDATES "authorize" init [first] second [third]
           [Request HEAD first; Request GET first]).
  - exact net_second_by_get_statuses.
  - reflexivity.
  - reflexivity.
  - reflexivity.
  - apply unreachable_cons.
    + intros [(res & Hres & _) | _ (res & Hres & _)]; discriminate.
    + apply unreachable_nil.
  - apply reachable_by_get; [reflexivity|].
    exists (Response 404 None). split; [reflexivity | simpl; lia].
Defined.

Lemma fallback_to_first_candidate_witness :
  let first := "https://authorize.roblox.com/oauth/userinfo" in
  let second := "https://www.roblox.com/oauth/userinfo" in
  resolveEndpoint dead ∅ (<["userinfo" := [first; second]]> ∅) "userinfo" init
  = (Return first,
     State (<["userinfo" := first]> ∅)
           [Request HEAD first; Request GET first;
            Request HEAD second; Request GET second]).
Proof.
  intros first second.
  apply (fallback_to_first_candidate dead ∅
           (<["userinfo" := [first; second]]> ∅) "userinfo" init first
           [second]).
  - reflexivity.
  - reflexivity.
  - reflexivity.
  - discriminate.
  - apply unreachable_cons; [apply dead_unreachable|].
    apply unreachable_cons; [apply dead_unreachable|].
    apply unreachable_nil.
Defined.

Lemma throws_iff_nothing_configured_witness :
  candidates_are_urls ENDPOINT_CANDIDATES "games"
  ∧ process_state dead ∅ ENDPOINT_CANDIDATES
      (resolveEndpoint dead ∅ ENDPOINT_CANDIDATES "token" init).2
  ∧ ((∃ msg,
        (resolveEndpoint dead ∅ ENDPOINT_CANDIDATES "games"
           (resolveEndpoint dead ∅ ENDPOINT_CANDIDATES "token" init).2).1
        = Throw msg)
     ↔ override ∅ "games" = None
       ∧ default [] (ENDPOINT_CANDIDATES !! "games") = []).
Proof.
  assert (candidates_are_urls ENDPOINT_CANDIDATES "games") as Hurls.
  { vm_compute. constructor. }
  assert (process_state dead ∅ ENDPOINT_CANDIDATES
            (resolveEndpoint dead ∅ ENDPOINT_CANDIDATES "token" init).2)
    as Hst.
  { apply process_call, process_init. }
  split; [exact Hurls|]. split; [exact Hst|].
  exact (throws_iff_nothing_configured dead ∅ ENDPOINT_CANDIDATES "games"
           _ Hurls Hst).
Defined.

End ResolverProps.

(** * Properties of the games query *)

Module GamesProps.
Import Net Js Games.

Lemma or_falsy_l a b : truthy a = false → a ||| b = b.
Proof. unfold Js.or. by intros ->. Qed.

Lemma truthy_defined v : truthy v = true → is_undefined v = false.
Proof. by destruct v. Qed.

(** *** The alias tables against the chains of [||] *)

Lemma pick_nil g dflt : pick g [] dflt = dflt.
Proof. done. Qed.

Lemma pick_cons g a aliases dflt :
  pick g (a :: aliases) dflt = at_path g a ||| pick g aliases dflt.
Proof. unfold pick, Js.or. simpl. by destruct (truthy (at_path g a)). Qed.

Lemma pick_all_falsy g aliases dflt :
  Forall (λ a, truthy (at_path g a) = false) aliases →
  pick g aliases dflt = dflt.
Proof.
  induction 1 as [|a aliases Ha _ IH]; [done|].
  by rewrite pick_cons, or_falsy_l.
Qed.

Lemma pick_defined g aliases dflt :
  is_undefined dflt = false → is_undefined (pick g aliases dflt) = false.
Proof.
  intros Hd. induction aliases as [|a aliases IH]; [done|].
  rewrite pick_cons. unfold Js.or.
  destruct (truthy (at_path g a)) eqn:Ha; [|done]. by apply truthy_defined.
Qed.

Lemma or_assoc a b c : a ||| b ||| c = a ||| (b ||| c).
Proof. unfold Js.or. destruct (truthy a) eqn:Ha; [by rewrite Ha | done]. Qed.

Lemma opt_field_field g k : nullish g = false → opt_field g k = field g k.
Proof. unfold opt_field. by intros ->. Qed.

Lemma at_path_1 g k : nullish g = false → at_path g [k] = field g k.
Proof. unfold at_path, opt_field. simpl. by intros ->. Qed.

Lemma at_path_2 g k1 k2 :
  nullish g = false → at_path g [k1; k2] = opt_field (field g k1) k2.
Proof. unfold at_path. simpl. unfold opt_field at 2. by intros ->. Qed.

(** [(c && c.name) || rest] and [c?.name || rest] agree. *)
Lemma guarded_name_or c rest :
  (c &&& field c "name") ||| rest = opt_field c "name" ||| rest.
Proof.
  unfold Js.and, opt_field. destruct (truthy c) eqn:Hc.
  - by destruct c.
  - rewrite (or_falsy_l c) by done.
    destruct c; try done; by rewrite or_falsy_l.
Qed.

(** Each normalizer computes the defaulted fields, and the identifier,
    from its alias table. *)
Lemma normalize_pick s g :
  nullish g = false →
  ∃ r, normalize s g = Some r
    ∧ id r = pick g (id_aliases s) (at_path g (id_last_alias s))
    ∧ creator r = pick g (creator_aliases s) (VStr "Unknown")
    ∧ thumbnail r = pick g (thumbnail_aliases s) VNull
    ∧ playing r = pick g (playing_aliases s) VNull
    ∧ visits r = pick g visits_aliases VNull
    ∧ (s = ListSearch →
       name r = pick g [["name"]; ["title"]] (VStr EmptyString)).
Proof.
  intros Hg. destruct s; simpl;
    unfold normalize_list, normalize_sorted, normalize_universe;
    rewrite Hg; eexists; (split; [reflexivity|]); simpl;
    unfold id_aliases, id_last_alias, creator_aliases, thumbnail_aliases,
      playing_aliases, visits_aliases;
    rewrite ?pick_cons, ?pick_nil, ?at_path_1, ?at_path_2 by done;
    rewrite ?guarded_name_or, ?or_assoc, ?(opt_field_field g) by done;
    split_and!; done.
Qed.

Lemma normalize_Some_not_null s g r :
  normalize s g = Some r → nullish g = false.
Proof.
  destruct s; simpl;
    unfold normalize_list, normalize_sorted, normalize_universe;
    by destruct (nullish g).
Qed.

Section WithUpstream.
Variable net : network.
Variable encodeURIComponent : string → string.

Local Abbreviation fetchJson := (fetchJson net).
Local Abbreviation listUrl := (listUrl encodeURIComponent).
Local Abbreviation placeDetailsUrl := (placeDetailsUrl encodeURIComponent).
Local Abbreviation strategy1 := (strategy1 net encodeURIComponent).
Local Abbreviation strategy2 := (strategy2 net encodeURIComponent).
Local Abbreviation strategy3 := (strategy3 net encodeURIComponent).
Local Abbreviation after_sorts := (after_sorts net encodeURIComponent).
Local Abbreviation handler := (handler net encodeURIComponent).
Local Abbreviation from_upstream := (from_upstream net).

(** *** Requests sent by the strategies *)

Lemma fetchJson_log url log :
  (fetchJson url log).2 = log ++ [Request GET url].
Proof.
  unfold Net.fetchJson, timeoutFetch. by destruct (net log _).
Qed.

Lemma strategy1_log q limit log :
  (strategy1 q limit log).2 = log ++ [Request GET (listUrl q limit)].
Proof.
  unfold Games.strategy1.
  pose proof (fetchJson_log (listUrl q limit) log) as Hlog.
  by destruct (fetchJson _ log) as [[r|] log1].
Qed.

Lemma strategy3_log q log :
  ∃ rest,
    (strategy3 q log).2 = log ++ Request GET (placeDetailsUrl q) :: rest.
Proof.
  unfold Games.strategy3.
  pose proof (fetchJson_log (placeDetailsUrl q) log) as Hlog.
  destruct (fetchJson _ log) as [details log1]; simpl in Hlog; subst log1.
  destruct details as [[| | | | |[|place places]|]|];
    try by (exists []).
  destruct (truthy _); [|by exists []].
  match goal with
  | |- context [fetchJson ?url ?log1] =>
      pose proof (fetchJson_log url log1) as Hlog2;
      destruct (fetchJson url log1) as [[byUniverse|] log2];
      simpl in Hlog2; subst log2; simpl;
      rewrite <- app_assoc; by eexists
  end.
Qed.

(** *** Where the strategies' results come from *)

Lemma mapped_data_cases s body url log log' :
  fetchJson url log = (Some body, log') →
  mapped_data (normalize s) body = []
  ∨ from_upstream s (mapped_data (normalize s) body).
Proof.
  intros Hfetch. unfold mapped_data.
  destruct (nullish body); [by left|].
  destruct (field body "data") as [| | | | |[|g gs]|] eqn:Hdata;
    try by left.
  destruct (mapM (normalize s) (g :: gs)) as [games|] eqn:Hmap; [|by left].
  right. exists url, log, body, (g :: gs). by rewrite Hfetch.
Qed.

Lemma strategy1_cases q limit log :
  (strategy1 q limit log).1 = []
  ∨ from_upstream ListSearch (strategy1 q limit log).1.
Proof.
  unfold Games.strategy1.
  destruct (fetchJson _ log) as [[r|] log1] eqn:Hfetch; [|by left].
  exact (mapped_data_cases ListSearch _ _ _ _ Hfetch).
Qed.

Lemma strategy2_cases limit log :
  (strategy2 limit log).1 = []
  ∨ from_upstream SortedListing (strategy2 limit log).1.
Proof.
  unfold Games.strategy2.
  destruct (fetchJson _ log) as [[sorts|] log1]; [|by left].
  destruct (truthy _); [|by left].
  destruct (fetchJson _ log1) as [[list|] log2] eqn:Hfetch; [|by left].
  exact (mapped_data_cases SortedListing _ _ _ _ Hfetch).
Qed.

Lemma strategy3_cases q log :
  (strategy3 q log).1 = []
  ∨ from_upstream PlaceLookup (strategy3 q log).1.
Proof.
  unfold Games.strategy3.
  destruct (fetchJson _ log) as [details log1].
  destruct details as [[| | | | |[|place places]|]|]; try by left.
  destruct (truthy _); [|by left].
  destruct (fetchJson _ log1) as [[byUniverse|] log2] eqn:Hfetch; [|by left].
  exact (mapped_data_cases PlaceLookup _ _ _ _ Hfetch).
Qed.

Lemma upstream_fails_strategy1 q limit log :
  upstream_fails net → (strategy1 q limit log).1 = [].
Proof.
  intros Hdown. unfold Games.strategy1.
  specialize (Hdown (listUrl q limit) log).
  by destruct (fetchJson _ log) as [[r|] log1].
Qed.

Lemma upstream_fails_strategy2 limit log :
  upstream_fails net → (strategy2 limit log).1 = [].
Proof.
  intros Hdown. unfold Games.strategy2.
  specialize (Hdown sortsUrl log).
  by destruct (fetchJson _ log) as [[r|] log1].
Qed.

Lemma upstream_fails_strategy3 q log :
  upstream_fails net → (strategy3 q log).1 = [].
Proof.
  intros Hdown. unfold Games.strategy3.
  specialize (Hdown (placeDetailsUrl q) log).
  by destruct (fetchJson _ log) as [[r|] log1].
Qed.

(** The handler, one block after the other. *)
Lemma handler_unfold rq log :
  handler rq log
  = let q := q_of rq in
    let limit := limit_of rq in
    let s1 := strategy1 q limit log in
    let s2 := if is_empty s1.1 then strategy2 limit s1.2 else s1 in
    let s3 := if wants_place_lookup s2.1 q then strategy3 q s2.2 else s2 in
    (Reply 200 q limit s3.1 None, s3.2).
Proof.
  unfold Games.handler, after_place_lookup, Games.after_sorts.
  destruct (strategy1 _ _ log) as [g1 l1]; simpl.
  destruct (is_empty g1); simpl.
  - destruct (strategy2 _ l1) as [g2 l2]; simpl.
    destruct (wants_place_lookup g2 _); simpl; [|done].
    by destruct (strategy3 _ l2).
  - destruct (wants_place_lookup g1 _); simpl; [|done].
    by destruct (strategy3 _ l1).
Qed.

Lemma wants_place_lookup_iff (games : list game) q :
  wants_place_lookup games q = true ↔ games = [] ∧ test_digits q = true.
Proof.
  unfold wants_place_lookup. destruct games; simpl.
  - destruct q; simpl.
    + split; [done | by intros [_ ?]].
    + split; [intros H; by split | by intros [_ H]].
  - split; [done | by intros [? _]].
Qed.

Lemma handler_after_sorts rq log :
  handler rq log
  = let q := q_of rq in
    let limit := limit_of rq in
    let before := after_sorts q limit log in
    let s3 :=
      if wants_place_lookup before.1 q then strategy3 q before.2
      else before in
    (Reply 200 q limit s3.1 None, s3.2).
Proof.
  unfold Games.handler, after_place_lookup.
  destruct (after_sorts _ _ log) as [g2 l2]; simpl.
  destruct (wants_place_lookup g2 _); simpl; [|done].
  by destruct (strategy3 _ l2).
Qed.

(** *** The claims about the games query *)

(** C5. When the first strategy (the list/search endpoint) gives a
    non-empty list of normalized records, the reply carries exactly that
    list, and the only request the handler sent is the one to the list
    endpoint: neither the sorts listing nor the place-details lookup
    issued a call. *)
Theorem first_strategy_result_is_final rq log games :
  (strategy1 (q_of rq) (limit_of rq) log).1 = games →
  games ≠ [] →
  handler rq log
  = (Reply 200 (q_of rq) (limit_of rq) games None,
     log ++ [Request GET (listUrl (q_of rq) (limit_of rq))])
  ∧ from_upstream ListSearch games.
Proof.
  intros Hs1 Hne. split.
  - rewrite handler_unfold. cbv zeta.
    pose proof (strategy1_log (q_of rq) (limit_of rq) log) as Hlog.
    destruct (strategy1 _ _ log) as [g1 l1]; simpl in *; subst.
    by destruct games.
  - destruct (strategy1_cases (q_of rq) (limit_of rq) log) as [Hnil|Hup];
      rewrite Hs1 in *; done.
Qed.

(** C6, amended.  The place-details lookup (strategy 3) is attempted,
    that is, its first request follows those of the earlier strategies,
    if and only if the earlier strategies left the list empty and the
    query string after trimming surrounding white space ([q]) consists
    of one or more digits; otherwise the handler sends nothing more and
    replies with the list it has. *)
Theorem place_lookup_iff_trimmed_digits rq log :
  let q := q_of rq in
  let before := after_sorts q (limit_of rq) log in
  let after := handler rq log in
  ((∃ rest, after.2 = before.2 ++ Request GET (placeDetailsUrl q) :: rest)
   ↔ before.1 = [] ∧ test_digits q = true)
  ∧ (¬ (before.1 = [] ∧ test_digits q = true) →
     after.2 = before.2 ∧ data after.1 = before.1).
Proof.
  intros q before after. subst after. rewrite handler_after_sorts.
  cbv zeta. fold q. fold before.
  pose proof (wants_place_lookup_iff before.1 q) as Hwants.
  destruct (wants_place_lookup before.1 q); simpl.
  - destruct Hwants as [Hyes _]. specialize (Hyes eq_refl).
    split; [|done]. split; [done|]. intros _. apply strategy3_log.
  - assert (¬ (before.1 = [] ∧ test_digits q = true)) as Hno.
    { intros H. by apply Hwants in H. }
    split; [|done]. split; [|done].
    intros [rest Hrest]. apply (f_equal length) in Hrest.
    rewrite length_app in Hrest. simpl in Hrest. lia.
Qed.

(** C7. The handler always replies with status 200 and no [error]
    property, whatever the upstream does.  When every strategy fails or
    leaves the list empty (the place-details lookup counting only when
    the query is numeric), the reply's list is empty; so it is, in
    particular, when every upstream call fails. *)
Theorem exhausted_chain_is_empty_success rq log :
  let q := q_of rq in
  let limit := limit_of rq in
  let s1 := strategy1 q limit log in
  let s2 := strategy2 limit s1.2 in
  let s3 := strategy3 q s2.2 in
  (∃ games, (handler rq log).1 = Reply 200 q limit games None)
  ∧ (s1.1 = [] → s2.1 = [] → (test_digits q = true → s3.1 = []) →
     (handler rq log).1 = Reply 200 q limit [] None)
  ∧ (upstream_fails net → (handler rq log).1 = Reply 200 q limit [] None).
Proof.
  intros q limit s1 s2 s3.
  assert (s1.1 = [] → s2.1 = [] → (test_digits q = true → s3.1 = []) →
          (handler rq log).1 = Reply 200 q limit [] None) as Hempty.
  { intros H1 H2 H3. rewrite handler_unfold. cbv zeta.
    fold q limit s1. rewrite H1. simpl. fold s2. rewrite H2.
    pose proof (wants_place_lookup_iff [] q) as Hwants.
    destruct (wants_place_lookup [] q); simpl.
    - fold s3. rewrite H3; [done|]. by apply Hwants.
    - by rewrite H2. }
  split_and!.
  - rewrite handler_unfold. by eexists.
  - exact Hempty.
  - intros Hdown. apply Hempty.
    + by apply upstream_fails_strategy1.
    + by apply upstream_fails_strategy2.
    + intros _. by apply upstream_fails_strategy3.
Qed.

(** C9, amended.  No record is dropped.  The list the handler replies
    with is empty or is the image, element by element and in order, of
    the whole [data] array of a body the upstream returned: it has as
    many records as that array has elements, and each record's
    identifier is the value of the first truthy identifier alias of its
    element or, when none is truthy, the value of the last alias, which
    is [undefined] when the element lacks it. *)
Theorem handler_keeps_every_record rq log :
  let games := data (handler rq log).1 in
  games = []
  ∨ ∃ s elems,
      from_upstream s games
      ∧ mapM (normalize s) elems = Some games
      ∧ length games = length elems
      ∧ Forall2
          (λ g r, id r = pick g (id_aliases s) (at_path g (id_last_alias s)))
          elems games.
Proof.
  assert (∀ s games, from_upstream s games →
            ∃ s elems, from_upstream s games
              ∧ mapM (normalize s) elems = Some games
              ∧ length games = length elems
              ∧ Forall2
                  (λ g r, id r
                          = pick g (id_aliases s) (at_path g (id_last_alias s)))
                  elems games) as Hup.
  { intros s games Hfrom. exists s.
    destruct Hfrom as (url & log0 & body & elems & Hfetch & Hdata & Hmap).
    exists elems. split_and!.
    - by exists url, log0, body, elems.
    - done.
    - symmetry. by eapply length_mapM.
    - apply mapM_Some_1 in Hmap.
      eapply Forall2_impl; [exact Hmap|]. intros g r Hr. simpl in Hr.
      destruct (normalize_pick s g) as (r' & Hr' & Hid & _).
      { by eapply normalize_Some_not_null. }
      congruence. }
  rewrite handler_unfold. cbv zeta.
  set (q := q_of rq). set (limit := limit_of rq).
  pose proof (strategy1_cases q limit log) as H1.
  destruct (strategy1 q limit log) as [g1 l1]; simpl in *.
  pose proof (strategy2_cases limit l1) as H2.
  destruct (is_empty g1); simpl.
  - destruct (strategy2 limit l1) as [g2 l2]; simpl in *.
    pose proof (strategy3_cases q l2) as H3.
    destruct (wants_place_lookup g2 q); simpl.
    + destruct (strategy3 q l2) as [g3 l3]; simpl in *.
      destruct H3 as [->|H3]; [by left | right; by eapply Hup].
    + destruct H2 as [->|H2]; [by left | right; by eapply Hup].
  - pose proof (strategy3_cases q l1) as H3.
    destruct (wants_place_lookup g1 q); simpl.
    + destruct (strategy3 q l1) as [g3 l3]; simpl in *.
      destruct H3 as [->|H3]; [by left | right; by eapply Hup].
    + destruct H1 as [->|H1]; [by left | right; by eapply Hup].
Qed.

End WithUpstream.

(** *** The claims about normalization *)

Lemma is_undefined_true v : is_undefined v = true ↔ v = VUndefined.
Proof. by destruct v. Qed.

(** What [JSON.stringify] keeps of a record: each property, unless its
    value is [undefined]. *)
Lemma to_json_lookup r :
  assoc (to_json r) "id"
  = (if is_undefined (id r) then None else Some (id r))
  ∧ assoc (to_json r) "name"
    = (if is_undefined (name r) then None else Some (name r))
  ∧ assoc (to_json r) "creator"
    = (if is_undefined (creator r) then None else Some (creator r))
  ∧ assoc (to_json r) "thumbnail"
    = (if is_undefined (thumbnail r) then None else Some (thumbnail r))
  ∧ assoc (to_json r) "playing"
    = (if is_undefined (playing r) then None else Some (playing r))
  ∧ assoc (to_json r) "visits"
    = (if is_undefined (visits r) then None else Some (visits r)).
Proof.
  destruct r as [i n c t p v]. unfold to_json. simpl.
  destruct (is_undefined i), (is_undefined n), (is_undefined c),
    (is_undefined t), (is_undefined p), (is_undefined v); done.
Qed.

(** C8, amended.  For every element that is not [null], normalization
    raises nothing and builds a record in which creator, thumbnail,
    playing and visits (and, for the list endpoint, name) are computed
    from the ordered aliases of the field: the first alias whose value is
    truthy wins, a falsy value counting as missing, and when none is
    truthy the field is the default: ["Unknown"] for creator, [null] for
    thumbnail, playing and visits, the empty string for name.  None of
    these fields is ever [undefined], so each is a property of the JSON
    reply; in particular an element without a truthy thumbnail alias
    gets thumbnail [null].  The identifier has no default: it is the
    value of the first truthy identifier alias or, when none is truthy,
    of the last alias; it is a property of the JSON reply exactly when it
    is not [undefined]; and when no identifier alias is present in the
    element it is [undefined] and the JSON reply has no [id]. *)
Theorem normalize_takes_first_truthy_alias s g :
  nullish g = false →
  ∃ r, normalize s g = Some r
    ∧ creator r = pick g (creator_aliases s) (VStr "Unknown")
    ∧ thumbnail r = pick g (thumbnail_aliases s) VNull
    ∧ playing r = pick g (playing_aliases s) VNull
    ∧ visits r = pick g visits_aliases VNull
    ∧ (s = ListSearch →
       name r = pick g [["name"]; ["title"]] (VStr EmptyString))
    ∧ is_undefined (creator r) = false
    ∧ is_undefined (thumbnail r) = false
    ∧ is_undefined (playing r) = false
    ∧ is_undefined (visits r) = false
    ∧ (Forall (λ a, truthy (at_path g a) = false) (thumbnail_aliases s) →
       thumbnail r = VNull)
    ∧ assoc (to_json r) "creator" = Some (creator r)
    ∧ assoc (to_json r) "thumbnail" = Some (thumbnail r)
    ∧ assoc (to_json r) "playing" = Some (playing r)
    ∧ assoc (to_json r) "visits" = Some (visits r)
    ∧ (s = ListSearch → assoc (to_json r) "name" = Some (name r))
    ∧ id r = pick g (id_aliases s) (at_path g (id_last_alias s))
    ∧ (assoc (to_json r) "id" = None ↔ id r = VUndefined)
    ∧ (Forall (λ a, at_path g a = VUndefined)
         (id_aliases s ++ [id_last_alias s]) →
       id r = VUndefined ∧ assoc (to_json r) "id" = None).
Proof.
  intros Hg.
  destruct (normalize_pick s g Hg)
    as (r & Hr & Hid & Hc & Ht & Hp & Hv & Hn).
  destruct (to_json_lookup r) as (Jid & Jn & Jc & Jt & Jp & Jv).
  assert (is_undefined (creator r) = false) as Dc
    by (rewrite Hc; by apply pick_defined).
  assert (is_undefined (thumbnail r) = false) as Dt
    by (rewrite Ht; by apply pick_defined).
  assert (is_undefined (playing r) = false) as Dp
    by (rewrite Hp; by apply pick_defined).
  assert (is_undefined (visits r) = false) as Dv
    by (rewrite Hv; by apply pick_defined).
  assert (assoc (to_json r) "id" = None ↔ id r = VUndefined) as Hjson_id.
  { rewrite Jid, <- is_undefined_true.
    destruct (is_undefined (id r)); split; done. }
  exists r. split_and!; try done.
  - rewrite Ht. apply pick_all_falsy.
  - by rewrite Jc, Dc.
  - by rewrite Jt, Dt.
  - by rewrite Jp, Dp.
  - by rewrite Jv, Dv.
  - intros Hs. rewrite Jn, (Hn Hs), pick_defined; done.
  - intros Hmissing. apply Forall_app in Hmissing as [Hfirst Hlast].
    apply Forall_cons in Hlast as [Hlast _].
    assert (id r = VUndefined) as Hundef.
    { rewrite Hid. rewrite pick_all_falsy; [exact Hlast|].
      eapply Forall_impl; [exact Hfirst|]. intros a Ha. simpl in Ha.
      by rewrite Ha. }
    split; [done | by apply Hjson_id].
Qed.


(** *** The claims at sample upstreams and payloads *)

Lemma first_strategy_result_is_final_witness :
  let rq := ReqQuery (Some "obby") None in
  let net := net_list_answers [payload_two_counts] in
  let games :=
    [Game (VNum 7) (VStr "Blox") (VStr "Unknown") VNull (VNum 5) VNull] in
  handler net encode_unreserved rq []
  = (Reply 200 "obby" 25 games None,
     [Request GET
        "https://games.roblox.com/v1/games/list?keyword=obby&limit=25"])
  ∧ from_upstream net ListSearch games.
Proof.
  intros rq net games.
  apply (first_strategy_result_is_final net encode_unreserved rq [] games).
  - reflexivity.
  - discriminate.
Defined.

(** C6, as stated, fails: the raw query string [" 123"] is not made of
    digits only, and yet, the earlier strategies having found nothing,
    the place-details lookup is attempted (for place [123]). *)
Lemma place_lookup_on_padded_digits :
  let rq := ReqQuery (Some " 123") None in
  let raw := default EmptyString (req_query_query rq) in
  let before :=
    after_sorts dead encode_unreserved (q_of rq) (limit_of rq) [] in
  let after := handler dead encode_unreserved rq [] in
  ¬ ((∃ rest,
        after.2
        = before.2
          ++ Request GET (placeDetailsUrl encode_unreserved (q_of rq)) :: rest)
     ↔ before.1 = [] ∧ test_digits raw = true).
Proof.
  intros rq raw before after [Hattempted _].
  destruct Hattempted as [_ Hdigits]; [by exists []|].
  discriminate Hdigits.
Qed.

Lemma exhausted_chain_is_empty_success_witness :
  let rq := ReqQuery (Some "obby") (Some 10) in
  upstream_fails dead
  ∧ (handler dead encode_unreserved rq []).1 = Reply 200 "obby" 10 [] None.
Proof.
  intros rq.
  assert (upstream_fails dead) as Hdown by (intros url log; reflexivity).
  split; [exact Hdown|].
  exact (proj2 (proj2
           (exhausted_chain_is_empty_success dead encode_unreserved rq []))
           Hdown).
Defined.

(** The specification's worked example: the keyword [123] finds nothing
    through the first two strategies and is resolved as a place id. *)
Example place_lookup_of_123 :
  handler net_place_123 encode_unreserved (ReqQuery (Some "123") None) []
  = (Reply 200 "123" 25
       [Game (VNum 9) (VStr "Test") (VStr "Unknown") VNull VNull VNull] None,
     [Request GET
        "https://games.roblox.com/v1/games/list?keyword=123&limit=25";
      Request GET sortsUrl;
      Request GET
        "https://games.roblox.com/v1/games/multiget-place-details?placeIds=123";
      Request GET "https://games.roblox.com/v1/games?universeIds=9"]).
Proof. reflexivity. Qed.

(** A [null] element makes every callback raise. *)
Lemma normalize_null s : normalize s VNull = None.
Proof. by destruct s. Qed.

(** C8, as stated, fails on an element with a player count of zero and
    no identifier: the first live-activity alias present is [playing],
    with value 0, and yet the record's playing is [null]; and the record's
    identifier is [undefined], so the JSON reply has no [id] property. *)
Lemma idle_game_without_id_normalized :
  ∃ r, normalize_list payload_idle_unnamed_id = Some r
    ∧ field payload_idle_unnamed_id "playing" = VNum 0
    ∧ playing r = VNull
    ∧ id r = VUndefined
    ∧ assoc (to_json r) "id" = None.
Proof. eexists. by split_and!. Qed.

Lemma normalize_takes_first_truthy_alias_witness :
  nullish payload_idle_unnamed_id = false
  ∧ ∃ r, normalize ListSearch payload_idle_unnamed_id = Some r
      ∧ thumbnail r = VNull
      ∧ creator r = VStr "Unknown"
      ∧ name r = VStr "Blox"
      ∧ id r = VUndefined
      ∧ assoc (to_json r) "id" = None.
Proof.
  split; [reflexivity|].
  destruct (normalize_takes_first_truthy_alias ListSearch
              payload_idle_unnamed_id eq_refl)
    as (r & Hr & Hc & Ht & _ & _ & Hn & _ & _ & _ & _ & _ & _ & _ & _ & _
        & _ & _ & _ & Hmissing).
  destruct Hmissing as [Hid Hjson]; [by repeat constructor|].
  exists r.
  split_and!;
    [exact Hr | exact Ht | exact Hc | exact (Hn eq_refl) | exact Hid
     | exact Hjson].
Defined.

(** C9, as stated, fails: the list endpoint returns one element with no
    identifier under any alias, and the reply still carries its record,
    with an [undefined] identifier. *)
Lemma record_without_id_is_kept :
  let net := net_list_answers [payload_idle_unnamed_id] in
  let rq := ReqQuery (Some "obby") None in
  Forall (λ a, at_path payload_idle_unnamed_id a = VUndefined)
    [["id"]; ["universeId"]; ["placeId"]; ["assetId"]]
  ∧ ∃ r, data (handler net encode_unreserved rq []).1 = [r]
      ∧ id r = VUndefined.
Proof.
  intros net rq. split; [by repeat constructor|].
  eexists. split; reflexivity.
Qed.



End GamesProps.

(** * Further properties of the endpoint resolver *)

Module ResolverExtras.
Import Net Resolver ResolverProps.

Section WithConfiguration.
Variable net : network.
Variable env : gmap string string.
Variable candidates : gmap string (list string).

Local Abbreviation probeUrl := (probeUrl net).
Local Abbreviation probe_loop := (probe_loop net).
Local Abbreviation resolveEndpoint := (resolveEndpoint net env candidates).
Local Abbreviation process_state := (process_state net env candidates).
Local Abbreviation probe_requests := (probe_requests net).
Local Abbreviation override := (override env).

Lemma probe_requests_length log url : (length (probe_requests log url) ≤ 2)%nat.
Proof.
  unfold Resolver.probe_requests. destruct (net log _); simpl; lia.
Qed.

(** The requests of the loop: at most two for each candidate, each to a
    candidate of the list. *)
Lemma probe_loop_log name urls st :
  ∃ reqs,
    log (probe_loop name urls st).2 = log st ++ reqs
    ∧ (length reqs ≤ 2 * length urls)%nat
    ∧ Forall (λ rq, req_url rq ∈ urls) reqs.
Proof.
  revert st. induction urls as [|url urls IH]; intros st; simpl.
  - exists []. by rewrite app_nil_r.
  - pose proof (probeUrl_log net url (log st)) as Hlog.
    pose proof (probe_requests_length (log st) url) as Hlen.
    pose proof (probe_requests_url net (log st) url) as Hurl.
    destruct (probeUrl url (log st)) as [ok log1]; simpl in Hlog; subst log1.
    destruct ok; simpl.
    + exists (probe_requests (log st) url). split_and!; [done | lia |].
      eapply Forall_impl; [exact Hurl|]. intros rq ->. left.
    + destruct (IH (State (resolved st) (log st ++ probe_requests (log st) url)))
        as (reqs & Hreqs & Hn & Hin). simpl in Hreqs.
      exists (probe_requests (log st) url ++ reqs). split_and!.
      * by rewrite Hreqs, app_assoc.
      * rewrite length_app. lia.
      * apply Forall_app. split.
        -- eapply Forall_impl; [exact Hurl|]. intros rq ->. left.
        -- eapply Forall_impl; [exact Hin|]. intros rq ?. by right.
Qed.

(** X1. The allowlist holds: in any state of the process, a URL that
    [resolveEndpoint] returns is the operation's override or one of the
    operation's configured candidates, and it is what the cache holds
    for the operation afterwards. *)
Theorem resolved_url_is_override_or_candidate name st url st' :
  process_state st →
  resolveEndpoint name st = (Return url, st') →
  (override name = Some url ∨ url ∈ default [] (candidates !! name))
  ∧ resolved st' !! name = Some url.
Proof.
  intros Hst Hcall. apply resolve_return in Hcall as [Hres Hfrom]. split.
  - destruct Hfrom as [?|[_ [(Hc & _)|?]]]; [by left | | by right].
    by apply (process_state_cache _ _ _ st Hst).
  - rewrite Hres. apply lookup_insert_eq.
Qed.

(** X2. A call for one operation never touches what is cached for
    another, and never removes a request from the log. *)
Theorem resolve_frames_other_operations name st key :
  name ≠ key →
  resolved (resolveEndpoint name st).2 !! key = resolved st !! key
  ∧ ∃ reqs, log (resolveEndpoint name st).2 = log st ++ reqs.
Proof.
  intros Hne. split; [by apply resolve_other_key|].
  unfold Resolver.resolveEndpoint.
  destruct (Js.truthy_string (env !! envKey name)); simpl.
  { exists []. by rewrite app_nil_r. }
  destruct (Js.truthy_string (resolved st !! name)).
  { exists []. by rewrite app_nil_r. }
  destruct (probe_loop_log name (default [] (candidates !! name)) st)
    as (reqs & Hreqs & _).
  destruct (probe_loop name _ st) as [[c|] st1]; simpl in *; [by eexists|].
  destruct (Js.truthy_string (head _)); simpl; by eexists.
Qed.

(** X3. The probing budget of one call: it sends at most two requests
    for each candidate of the operation, every one of them to a
    candidate of that operation, and none at all when an override is
    configured or a resolution is cached. *)
Theorem resolve_probe_budget name st :
  let list := default [] (candidates !! name) in
  ∃ reqs,
    log (resolveEndpoint name st).2 = log st ++ reqs
    ∧ (length reqs ≤ 2 * length list)%nat
    ∧ Forall (λ rq, req_url rq ∈ list) reqs
    ∧ (is_Some (override name)
       ∨ is_Some (Js.truthy_string (resolved st !! name)) → reqs = []).
Proof.
  intros list. unfold Resolver.resolveEndpoint, Resolver.override.
  destruct (Js.truthy_string (env !! envKey name)) as [o|] eqn:Ho; simpl.
  { exists []. rewrite app_nil_r. split_and!; [done | simpl; lia | done | done]. }
  destruct (Js.truthy_string (resolved st !! name)) as [u|] eqn:Hc.
  { exists []. rewrite app_nil_r. split_and!; [done | simpl; lia | done | done]. }
  destruct (probe_loop_log name list st) as (reqs & Hreqs & Hn & Hin).
  fold list.
  assert (is_Some (@None string) ∨ is_Some (@None string) → reqs = [])
    as Hnone by (intros [[? [=]]|[? [=]]]).
  destruct (probe_loop name list st) as [[c|] st1]; simpl in *.
  { by exists reqs. }
  destruct (Js.truthy_string (head list)); simpl; by exists reqs.
Qed.

(** X4. A call that throws has changed nothing and sent nothing, and
    its message names the operation. *)
Theorem resolve_throw_changes_nothing name st message st' :
  candidates_are_urls candidates name →
  resolveEndpoint name st = (Throw message, st') →
  st' = st ∧ message = "No candidates configured for endpoint " +:+ name.
Proof.
  intros Hurls Hcall.
  pose proof (resolve_throw _ _ _ _ _ _ _ Hcall) as (_ & _ & Hhead).
  assert (default [] (candidates !! name) = []) as Hnil.
  { unfold Resolver.candidates_are_urls in Hurls.
    destruct (default [] (candidates !! name)) as [|first rest]; [done|].
    apply Forall_cons in Hurls as [Hne _].
    apply truthy_string_None in Hhead as [?|[= ?]]; done. }
  revert Hcall. unfold Resolver.resolveEndpoint.
  destruct (Js.truthy_string (env !! envKey name)); [done|].
  destruct (Js.truthy_string (resolved st !! name)); [done|].
  rewrite Hnil. simpl. by intros [= <- <-].
Qed.

(** X5. The exact criterion of a probe.  It succeeds exactly when the
    HEAD request gets a response whose status is not 0 and is below 500,
    or the HEAD request raises and the GET request gets such a response.
    In particular a response to HEAD settles the probe: after a HEAD
    answered with a server error no GET is sent. *)
Theorem probeUrl_criterion url log :
  let accepted res := status res ≠ 0 ∧ status res < 500 in
  ((probeUrl url log).1 = true
   ↔ (∃ res, net log (Request HEAD url) = Fulfilled res ∧ accepted res)
     ∨ (net log (Request HEAD url) = Rejected
        ∧ ∃ res, net (log ++ [Request HEAD url]) (Request GET url)
                 = Fulfilled res ∧ accepted res))
  ∧ (∀ res, net log (Request HEAD url) = Fulfilled res →
       (probeUrl url log).2 = log ++ [Request HEAD url]).
Proof.
  intros accepted.
  assert (∀ res, below_500 res = true ↔ accepted res) as Hacc.
  { intros res. unfold below_500, accepted.
    rewrite andb_true_iff, negb_true_iff. split.
    - intros [H0 Hlt]. split; lia.
    - intros [H0 Hlt]. split; lia. }
  unfold Resolver.probeUrl, timeoutFetch; simpl.
  destruct (net log (Request HEAD url)) as [|res] eqn:Hhead; simpl.
  - split; [|done].
    destruct (net _ (Request GET url)) as [|res2] eqn:Hget; simpl.
    + split; [done|]. intros [(? & [=] & _)|(_ & ? & [=] & _)].
    + rewrite Hacc. split.
      * intros ?. right. split; [done|]. by exists res2.
      * intros [(? & [=] & _)|(_ & ? & [= <-] & ?)]. done.
  - split; [|done]. rewrite Hacc. split.
    + intros ?. left. by exists res.
    + intros [(? & [= <-] & ?)|([=] & _)]. done.
Qed.

End WithConfiguration.

Lemma resolved_url_is_override_or_candidate_witness :
  let second := "https://www.roblox.com/oauth/authorize" in
  (override ∅ "authorize" = Some second
   ∨ second ∈ default [] (ENDPOINT_CANDIDATES !! "authorize"))
  ∧ resolved (resolveEndpoint net_second_by_get ∅ ENDPOINT_CANDIDATES
                "authorize" init).2 !! "authorize" = Some second.
Proof.
  intros second.
  apply (resolved_url_is_override_or_candidate net_second_by_get ∅
           ENDPOINT_CANDIDATES "authorize" init second
           (resolveEndpoint net_second_by_get ∅ ENDPOINT_CANDIDATES
              "authorize" init).2).
  - apply process_init.
  - reflexivity.
Defined.

Lemma resolve_frames_other_operations_witness :
  let st :=
    (resolveEndpoint dead env_token_override ENDPOINT_CANDIDATES "token"
       init).2 in
  resolved (resolveEndpoint dead env_token_override ENDPOINT_CANDIDATES
              "authorize" st).2 !! "token"
  = resolved st !! "token"
  ∧ ∃ reqs,
      log (resolveEndpoint dead env_token_override ENDPOINT_CANDIDATES
             "authorize" st).2
      = log st ++ reqs.
Proof.
  intros st.
  apply (resolve_frames_other_operations dead env_token_override
           ENDPOINT_CANDIDATES "authorize" st "token").
  discriminate.
Defined.

Lemma resolve_throw_changes_nothing_witness :
  candidates_are_urls ENDPOINT_CANDIDATES "games"
  ∧ (resolveEndpoint dead ∅ ENDPOINT_CANDIDATES "games" init).2 = init
  ∧ "No candidates configured for endpoint games"
    = "No candidates configured for endpoint " +:+ "games".
Proof.
  assert (candidates_are_urls ENDPOINT_CANDIDATES "games") as Hurls.
  { vm_compute. constructor. }
  split; [exact Hurls|].
  apply (resolve_throw_changes_nothing dead ∅ ENDPOINT_CANDIDATES "games"
           init "No candidates configured for endpoint games"
           (resolveEndpoint dead ∅ ENDPOINT_CANDIDATES "games" init).2 Hurls).
  reflexivity.
Defined.

End ResolverExtras.

(** * Further properties of the games query *)

Module GamesExtras.
Import Net Js Games GamesProps.

Section WithUpstream.
Variable net : network.
Variable encodeURIComponent : string → string.

Local Abbreviation fetchJson := (fetchJson net).
Local Abbreviation listUrl := (listUrl encodeURIComponent).
Local Abbreviation sortedUrl := (sortedUrl encodeURIComponent).
Local Abbreviation placeDetailsUrl := (placeDetailsUrl encodeURIComponent).
Local Abbreviation strategy1 := (strategy1 net encodeURIComponent).
Local Abbreviation strategy2 := (strategy2 net encodeURIComponent).
Local Abbreviation strategy3 := (strategy3 net encodeURIComponent).
Local Abbreviation handler := (handler net encodeURIComponent).

Lemma strategy2_requests limit log :
  ∃ rest,
    (strategy2 limit log).2 = log ++ Request GET sortsUrl :: rest
    ∧ (length rest ≤ 1)%nat ∧ all_get rest.
Proof.
  unfold Games.strategy2.
  pose proof (fetchJson_log net sortsUrl log) as Hlog.
  destruct (fetchJson _ log) as [[sorts|] log1]; simpl in Hlog; subst log1.
  - destruct (truthy _).
    + match goal with
      | |- context [fetchJson ?url ?log1] =>
          pose proof (fetchJson_log net url log1) as Hlog2;
          destruct (fetchJson url log1) as [[list|] log2];
          (simpl in Hlog2; subst log2; simpl; rewrite <- app_assoc;
           eexists; split_and!;
           [reflexivity | simpl; lia | by repeat constructor])
      end.
    + exists []. split_and!; [done | simpl; lia | constructor].
  - exists []. split_and!; [done | simpl; lia | constructor].
Qed.

Lemma strategy3_requests q log :
  ∃ rest,
    (strategy3 q log).2 = log ++ Request GET (placeDetailsUrl q) :: rest
    ∧ (length rest ≤ 1)%nat ∧ all_get rest.
Proof.
  unfold Games.strategy3.
  pose proof (fetchJson_log net (placeDetailsUrl q) log) as Hlog.
  destruct (fetchJson _ log) as [details log1]; simpl in Hlog; subst log1.
  assert (∃ rest : list request,
            log ++ [Request GET (placeDetailsUrl q)]
            = log ++ Request GET (placeDetailsUrl q) :: rest
            ∧ (length rest ≤ 1)%nat ∧ all_get rest) as Hnone.
  { exists []. split_and!; [done | simpl; lia | constructor]. }
  destruct details as [[| | | | |[|place places]|]|]; try exact Hnone.
  destruct (truthy _); [|exact Hnone].
  match goal with
  | |- context [fetchJson ?url ?log1] =>
      pose proof (fetchJson_log net url log1) as Hlog2;
      destruct (fetchJson url log1) as [[byUniverse|] log2];
      (simpl in Hlog2; subst log2; simpl; rewrite <- app_assoc;
       eexists; split_and!;
       [reflexivity | simpl; lia | by repeat constructor])
  end.
Qed.

(** The log of the handler when the list endpoint gave nothing. *)
Lemma handler_log_after_empty_list rq log :
  (strategy1 (q_of rq) (limit_of rq) log).1 = [] →
  ∃ rest,
    (handler rq log).2
    = log ++ Request GET (listUrl (q_of rq) (limit_of rq))
          :: Request GET sortsUrl :: rest
    ∧ (length rest ≤ 3)%nat ∧ all_get rest.
Proof.
  intros Hs1. rewrite handler_unfold. cbv zeta.
  pose proof (strategy1_log net encodeURIComponent (q_of rq) (limit_of rq) log)
    as Hlog.
  destruct (strategy1 _ _ log) as [g1 l1]; simpl in *; subst g1 l1. simpl.
  destruct (strategy2_requests (limit_of rq)
              (log ++ [Request GET (listUrl (q_of rq) (limit_of rq))]))
    as (rest2 & Hlog2 & Hn2 & Hget2).
  destruct (strategy2 _ _) as [g2 l2]; simpl in *; subst l2.
  destruct (wants_place_lookup g2 _); simpl.
  - match goal with
    | |- context [strategy3 ?q ?l] =>
        destruct (strategy3_requests q l) as (rest3 & Hlog3 & Hn3 & Hget3)
    end.
    rewrite Hlog3.
    exists (rest2 ++ Request GET (placeDetailsUrl (q_of rq)) :: rest3).
    split_and!.
    + by rewrite <- !app_assoc.
    + rewrite length_app. simpl. lia.
    + apply Forall_app. split; [done|]. by constructor.
  - exists rest2. split_and!; [by rewrite <- app_assoc | lia | done].
Qed.

(** X6. The limit of the reply, which is also the limit sent upstream,
    never exceeds 100; it is 25 when the parameter is missing, not a
    number, or 0; and any other number at most 100 is taken as it is,
    negative numbers included: there is no lower bound. *)
Theorem reply_limit_bounds rq log :
  let l := limit (handler rq log).1 in
  l ≤ 100
  ∧ (req_query_limit rq = None ∨ req_query_limit rq = Some 0 → l = 25)
  ∧ (∀ n, req_query_limit rq = Some n → n ≠ 0 → n ≤ 100 → l = n)
  ∧ ∃ rest, (handler rq log).2
            = log ++ Request GET (listUrl (q_of rq) l) :: rest.
Proof.
  assert (limit (handler rq log).1 = limit_of rq) as ->.
  { by rewrite handler_unfold. }
  cbv zeta. split_and!.
  - unfold limit_of. lia.
  - unfold limit_of. intros [->| ->]; simpl; lia.
  - unfold limit_of. intros n -> Hn0 Hn100.
    destruct (Z.eqb_spec n 0); lia.
  - rewrite handler_unfold. cbv zeta.
    pose proof (strategy1_log net encodeURIComponent (q_of rq) (limit_of rq)
                  log) as Hlog.
    destruct (strategy1 _ _ log) as [g1 l1]; simpl in *; subst l1.
    destruct g1 as [|g gs]; simpl.
    + destruct (strategy2_requests (limit_of rq)
                  (log ++ [Request GET (listUrl (q_of rq) (limit_of rq))]))
        as (rest2 & Hlog2 & _).
      destruct (strategy2 _ _) as [g2 l2]; simpl in *; subst l2.
      destruct (wants_place_lookup g2 _); simpl.
      * match goal with
        | |- context [strategy3 ?q ?l] =>
            destruct (strategy3_requests q l) as (rest3 & Hlog3 & _)
        end.
        rewrite Hlog3, <- !app_assoc. by eexists.
      * rewrite <- app_assoc. by eexists.
    + by exists [].
Qed.

(** X7. The request budget of one query: the handler's first request is
    always the one to the list endpoint, it sends at most four more, and
    all of them are GET requests. *)
Theorem handler_request_budget rq log :
  ∃ reqs,
    (handler rq log).2
    = log ++ Request GET (listUrl (q_of rq) (limit_of rq)) :: reqs
    ∧ (length reqs ≤ 4)%nat
    ∧ all_get reqs.
Proof.
  destruct (strategy1 (q_of rq) (limit_of rq) log).1 as [|g gs] eqn:Hs1.
  - destruct (handler_log_after_empty_list rq log Hs1)
      as (rest & Hlog & Hn & Hget).
    exists (Request GET sortsUrl :: rest). split_and!.
    + done.
    + simpl. lia.
    + by constructor.
  - exists []. split_and!; [|simpl; lia|constructor].
    rewrite handler_unfold. cbv zeta.
    pose proof (strategy1_log net encodeURIComponent (q_of rq) (limit_of rq)
                  log) as Hlog.
    destruct (strategy1 _ _ log) as [g1 l1]; simpl in *. by subst.
Qed.

(** X8. The sorted listing is the fallback of every query, whatever its
    keyword: the request to the sorts endpoint follows the one to the
    list endpoint if and only if the list endpoint gave no record. *)
Theorem sorts_fallback_iff_list_empty rq log :
  (∃ rest,
     (handler rq log).2
     = log ++ Request GET (listUrl (q_of rq) (limit_of rq))
           :: Request GET sortsUrl :: rest)
  ↔ (strategy1 (q_of rq) (limit_of rq) log).1 = [].
Proof.
  split.
  - intros [rest Hrest].
    destruct (strategy1 (q_of rq) (limit_of rq) log).1 as [|g gs] eqn:Hs1;
      [done|].
    revert Hrest. rewrite handler_unfold. cbv zeta.
    pose proof (strategy1_log net encodeURIComponent (q_of rq) (limit_of rq)
                  log) as Hlog.
    destruct (strategy1 _ _ log) as [g1 l1]; simpl in *; subst. simpl.
    intros Hrest. apply (f_equal length) in Hrest.
    rewrite !length_app in Hrest. simpl in Hrest. lia.
  - intros Hs1.
    destruct (handler_log_after_empty_list rq log Hs1) as (rest & Hlog & _).
    by exists rest.
Qed.

(** X9. Mapping is all or nothing: when the body of the list endpoint
    carries a [data] array with a [null] element, the whole array is
    given up, not only that element: strategy 1 yields no record and the
    handler goes on to the sorts endpoint. *)
Theorem null_element_voids_list_result rq log body elems :
  (fetchJson (listUrl (q_of rq) (limit_of rq)) log).1 = Some body →
  field body "data" = VArr elems →
  Exists (λ g, nullish g = true) elems →
  (strategy1 (q_of rq) (limit_of rq) log).1 = []
  ∧ ∃ rest,
      (handler rq log).2
      = log ++ Request GET (listUrl (q_of rq) (limit_of rq))
            :: Request GET sortsUrl :: rest.
Proof.
  intros Hfetch Hdata Hnull.
  assert ((strategy1 (q_of rq) (limit_of rq) log).1 = []) as Hs1.
  { unfold Games.strategy1.
    destruct (fetchJson _ log) as [r log1]; simpl in Hfetch; subst r. simpl.
    unfold mapped_data. destruct (nullish body); [done|]. rewrite Hdata.
    destruct elems as [|g gs]; [done|].
    rewrite (mapM_None_2 normalize_list (g :: gs)); [done|].
    eapply Exists_impl; [exact Hnull|]. intros x Hx. simpl.
    unfold normalize_list. by rewrite Hx. }
  split; [exact Hs1|].
  destruct (handler_log_after_empty_list rq log Hs1) as (rest & Hlog & _).
  by exists rest.
Qed.

(** X10. [fetchJson] returns a value exactly when the response has a
    status from 200 to 299 and a body that parses, that value being the
    parsed body; a response with any other status raises even if its
    body is valid JSON.  Either way exactly one GET request is sent. *)
Theorem fetchJson_criterion url log v :
  ((fetchJson url log).1 = Some v
   ↔ ∃ res, net log (Request GET url) = Fulfilled res
            ∧ 200 ≤ status res ≤ 299 ∧ body res = Some v)
  ∧ (fetchJson url log).2 = log ++ [Request GET url].
Proof.
  split; [|apply fetchJson_log].
  unfold Net.fetchJson, timeoutFetch, ok; simpl.
  destruct (net log (Request GET url)) as [|res]; simpl.
  - split; [done | by intros (? & [=] & _)].
  - destruct ((200 <=? status res) && (status res <=? 299)) eqn:Hok.
    + apply andb_true_iff in Hok as [H1%Z.leb_le H2%Z.leb_le]. split.
      * intros Hb. exists res. split_and!; [done | lia | lia | done].
      * by intros (? & [= <-] & _ & Hb).
    + split; [done|]. intros (? & [= <-] & [H1 H2] & _).
      apply andb_false_iff in Hok as [Hok|Hok]; apply Z.leb_gt in Hok; lia.
Qed.

End WithUpstream.

Lemma null_element_voids_list_result_witness :
  let net := net_list_answers [payload_two_counts; VNull] in
  let rq := ReqQuery (Some "obby") None in
  (strategy1 net encode_unreserved (q_of rq) (limit_of rq) []).1 = []
  ∧ ∃ rest,
      (handler net encode_unreserved rq []).2
      = [] ++ Request GET (listUrl encode_unreserved (q_of rq) (limit_of rq))
           :: Request GET sortsUrl :: rest.
Proof.
  intros net rq.
  apply (null_element_voids_list_result net encode_unreserved rq []
           (VObj [("data", VArr [payload_two_counts; VNull])])
           [payload_two_counts; VNull]).
  - reflexivity.
  - reflexivity.
  - apply Exists_cons_tl, Exists_cons_hd. reflexivity.
Defined.

End GamesExtras.

(** * Properties of the sign-in flow *)

Module OAuthProps.
Import Net Js Resolver OAuth ResolverProps.

Section WithServer.
Variable net : network.
Variable env : gmap string string.
Variable candidates : gmap string (list string).
Variable secure_net : secure_network.
Variable cfg : config.
Variable encodeURIComponent : string → string.
Variable JSON_parse : string → parsed.
Variable jwt_decode : value → option value.
Variable null_read_message : string.

Local Abbreviation resolveEndpoint := (resolveEndpoint net env candidates).
Local Abbreviation allowed := (allowed env candidates).
Local Abbreviation cache_allowed := (cache_allowed env candidates).
Local Abbreviation auth :=
  (auth net env candidates cfg encodeURIComponent).
Local Abbreviation auth_callback :=
  (auth_callback net env candidates secure_net cfg JSON_parse
     null_read_message).
Local Abbreviation token_form := (token_form cfg).
Local Abbreviation api_me :=
  (api_me net env candidates secure_net encodeURIComponent JSON_parse
     jwt_decode).
Local Abbreviation userinfo_from_endpoint :=
  (userinfo_from_endpoint net env candidates secure_net JSON_parse).
Local Abbreviation userinfo_from_id_token :=
  (userinfo_from_id_token jwt_decode).
Local Abbreviation headshot_from_thumbnails :=
  (headshot_from_thumbnails net encodeURIComponent).

(** *** The resolver as the handlers use it *)

Lemma resolve_allowed name st url st' :
  cache_allowed st →
  resolveEndpoint name st = (Return url, st') →
  allowed name url ∧ cache_allowed st'.
Proof.
  intros Hcache Hcall. apply resolve_return in Hcall as [Hres Hfrom].
  assert (allowed name url) as Hallowed.
  { destruct Hfrom as [?|[_ [(Hc & _)|?]]]; [by left | | by right].
    by apply Hcache. }
  split; [done|]. intros key u. rewrite Hres.
  destruct (decide (name = key)) as [->|Hne].
  - rewrite lookup_insert_eq. by intros [= <-].
  - rewrite lookup_insert_ne by done. apply Hcache.
Qed.

Lemma resolve_throw_allowed name st message st' :
  cache_allowed st →
  resolveEndpoint name st = (Throw message, st') →
  cache_allowed st'.
Proof.
  intros Hcache Hcall. apply resolve_throw in Hcall as [Hres _].
  intros key u. rewrite Hres. apply Hcache.
Qed.

Lemma cache_allowed_init : cache_allowed init.
Proof. intros key u. simpl. by rewrite lookup_empty. Qed.

(** *** [/auth/callback], case by case *)

Lemma nonempty_true s : nonempty s = true ↔ s ≠ EmptyString.
Proof.
  unfold nonempty. rewrite negb_true_iff. split.
  - by intros ?%String.eqb_neq.
  - by intros ?%String.eqb_neq.
Qed.

Lemma callback_cases code state s a r s' a' :
  auth_callback code state s a = (r, s', a') →
  (r = Send 400 invalid_oauth_response ∧ s' = s ∧ a' = a
   ∧ (truthy_string code = None ∨ state ≠ oauth_state s))
  ∨ ∃ c, truthy_string code = Some c ∧ state = oauth_state s
      ∧ ((∃ message rs,
            resolveEndpoint "token" (resolver a) = (Throw message, rs)
            ∧ r = Send 500 ("OAuth token exchange error: " +:+ message)
            ∧ s' = s ∧ a' = App rs (secure_log a))
         ∨ ∃ ep rs,
             resolveEndpoint "token" (resolver a) = (Return ep, rs)
             ∧ a' = App rs (secure_log a ++ [TokenPost ep (token_form c)])
             ∧ ((∃ text, r = Send 500 text ∧ s' = s)
                ∨ r = Redirect "/"
                  ∧ oauth_state s' = oauth_state s
                  ∧ ∃ status text tokenJson,
                      secure_net (secure_log a) (TokenPost ep (token_form c))
                      = SecureFulfilled status text
                      ∧ ok_status status = true
                      ∧ JSON_parse text = Parsed tokenJson
                      ∧ nullish tokenJson = false
                      ∧ roblox_token s' = field tokenJson "access_token")).
Proof.
  unfold OAuth.auth_callback.
  destruct (truthy_string code) as [c|] eqn:Hcode.
  2:{ intros [= <- <- <-]. left. auto. }
  destruct (bool_decide_reflect (state = oauth_state s)) as [Hstate|Hstate];
    simpl.
  2:{ intros [= <- <- <-]. left. auto. }
  intros Hcb. right. exists c. split_and!; [done..|].
  destruct (resolveEndpoint "token" (resolver a)) as [[ep|message] rs].
  2:{ injection Hcb as <- <- <-. left. by exists message, rs. }
  right. exists ep, rs. split; [done|].
  destruct (secure_net _ _) as [message|status text] eqn:Hnet.
  { injection Hcb as <- <- <-. split; [done|]. left. by eexists. }
  destruct (ok_status status) eqn:Hok; simpl in Hcb.
  2:{ injection Hcb as <- <- <-. split; [done|]. left. by eexists. }
  destruct (JSON_parse text) as [tokenJson|message] eqn:Hparse.
  2:{ injection Hcb as <- <- <-. split; [done|]. left. by eexists. }
  destruct (nullish tokenJson) eqn:Hnull.
  { injection Hcb as <- <- <-. split; [done|]. left. by eexists. }
  injection Hcb as <- <- <-. split; [done|]. right.
  split_and!; [done..|]. by exists status, text, tokenJson.
Qed.

Lemma callback_400_iff code state s a :
  (∃ text s' a', auth_callback code state s a = (Send 400 text, s', a'))
  ↔ truthy_string code = None ∨ state ≠ oauth_state s.
Proof.
  split.
  - intros (text & s' & a' & Hcb).
    apply callback_cases in Hcb
      as [(_ & _ & _ & ?)|(c & _ & _ & [(m & rs & _ & [=] & _)|Hex])];
      [done|].
    destruct Hex as (ep & rs & _ & _ & [(t & [=] & _)|([=] & _)]).
  - intros Hbad. exists invalid_oauth_response, s, a.
    unfold OAuth.auth_callback.
    destruct (truthy_string code) as [c|]; [|done].
    destruct Hbad as [[=]|Hne].
    by destruct (bool_decide_reflect (state = oauth_state s)).
Qed.

(** *** [/auth] and [/auth/callback] *)

(** X11. [/auth] redirects only to an allowed endpoint: when every
    cached URL is allowed, the location of a redirect is the authorize
    override or an authorize candidate, followed by the query string;
    the state in that query string is the one stored in the session; the
    session's tokens are untouched and no request with credentials is
    sent. *)
Theorem auth_redirects_to_allowed_endpoint state s a url s' a' :
  cache_allowed (resolver a) →
  auth state s a = (Redirect url, s', a') →
  (∃ ep,
     allowed "authorize" ep
     ∧ url = ep +:+ "?client_id="
             +:+ encodeURIComponent (ROBLOX_CLIENT_ID cfg)
             +:+ "&response_type=code&redirect_uri="
             +:+ encodeURIComponent (BASE_URL cfg +:+ "/auth/callback")
             +:+ "&state=" +:+ state
             +:+ "&scope=" +:+ encodeURIComponent "openid profile")
  ∧ s' = Session (Some state) (roblox_token s) (roblox_id_token s)
  ∧ secure_log a' = secure_log a
  ∧ cache_allowed (resolver a').
Proof.
  intros Hcache. unfold OAuth.auth.
  destruct (negb _ || negb _); [done|].
  destruct (resolveEndpoint "authorize" (resolver a)) as [[ep|message] rs]
    eqn:Hcall; [|done].
  intros [= <- <- <-].
  destruct (resolve_allowed _ _ _ _ Hcache Hcall) as [Hep Hcache'].
  split_and!; [by exists ep | done..].
Qed.

(** X12. [/auth] fails closed and is otherwise robust.  With the client
    id or the client secret missing it answers 500 and changes nothing:
    no state is stored and nothing is probed.  With both set, and an
    authorize override or a first authorize candidate configured, it
    redirects whatever the network does, unreachable candidates
    included. *)
Theorem auth_redirects_whenever_configured state s a :
  (ROBLOX_CLIENT_ID cfg = EmptyString ∨ ROBLOX_CLIENT_SECRET cfg = EmptyString →
   auth state s a
   = (Send 500 "Server not configured: missing client id/secret.", s, a))
  ∧ (ROBLOX_CLIENT_ID cfg ≠ EmptyString →
     ROBLOX_CLIENT_SECRET cfg ≠ EmptyString →
     is_Some (override env "authorize")
     ∨ is_Some (truthy_string (head (default [] (candidates !! "authorize")))) →
     ∃ url s' a', auth state s a = (Redirect url, s', a')).
Proof.
  unfold OAuth.auth. split.
  - intros [-> | ->]; simpl; [done|]. by rewrite orb_true_r.
  - intros Hid%nonempty_true Hsecret%nonempty_true Hconfigured.
    rewrite Hid, Hsecret. simpl.
    destruct (resolveEndpoint "authorize" (resolver a)) as [[ep|message] rs]
      eqn:Hcall; [by eexists _, _, _|].
    apply resolve_throw in Hcall as (_ & Ho & Hhead).
    rewrite Ho, Hhead in Hconfigured.
    by destruct Hconfigured as [[? [=]]|[? [=]]].
Qed.

(** X13. [/auth/callback] answers 400 exactly when the code is missing
    or empty or the state parameter differs from the state kept in the
    session, and a callback so rejected has no effect: the session is
    unchanged, nothing is resolved and nothing is sent. *)
Theorem callback_rejects_without_effect code state s a :
  ((∃ text s' a', auth_callback code state s a = (Send 400 text, s', a'))
   ↔ truthy_string code = None ∨ state ≠ oauth_state s)
  ∧ (∀ text s' a',
       auth_callback code state s a = (Send 400 text, s', a') →
       text = invalid_oauth_response ∧ s' = s ∧ a' = a).
Proof.
  split; [apply callback_400_iff|].
  intros text s' a' Hcb.
  apply callback_cases in Hcb
    as [([= <-] & -> & -> & _)|(c & _ & _ & [(m & rs & _ & [=] & _)|Hex])];
    [done|].
  destruct Hex as (ep & rs & _ & _ & [(t & [=] & _)|([=] & _)]).
Qed.

(** X14. [/auth/callback] writes the session only on success: unless it
    redirects to [/], the session is left as it was, whatever went wrong
    in the exchange (unresolved endpoint, failed request, status outside
    200..299, unparsable or [null] body).  On success the state kept in
    the session stays, and the access token stored is the
    [access_token] of the parsed body of a 2xx response. *)
Theorem callback_writes_session_only_on_success code state s a r s' a' :
  auth_callback code state s a = (r, s', a') →
  (r ≠ Redirect "/" → s' = s)
  ∧ (r = Redirect "/" →
     oauth_state s' = oauth_state s
     ∧ ∃ ep status text tokenJson,
         secure_net (secure_log a)
           (TokenPost ep (token_form (default EmptyString code)))
         = SecureFulfilled status text
         ∧ 200 ≤ status ≤ 299
         ∧ JSON_parse text = Parsed tokenJson
         ∧ roblox_token s' = field tokenJson "access_token").
Proof.
  intros Hcb.
  apply callback_cases in Hcb
    as [(-> & -> & -> & _)|(c & Hc & _ & [(m & rs & _ & -> & -> & _)|Hex])];
    [done..|].
  destruct Hex as (ep & rs & _ & _ & [(t & -> & ->)|(-> & Hstate & Hex)]);
    [done|].
  split; [done|]. intros _. split; [done|].
  destruct Hex as (status & text & tokenJson & Hnet & Hok & Hparse & _ & Htok).
  exists ep, status, text, tokenJson.
  apply truthy_string_Some in Hc as [-> _]. simpl.
  split_and!; try done.
  - unfold ok_status in Hok. lia.
  - unfold ok_status in Hok. lia.
Qed.

(** X15. The client secret leaves the server in one way only: a call of
    [/auth/callback] sends at most one request with credentials, the
    token POST with the form of the exchange, it sends it only after the
    code and state checks have passed, and, when every cached URL is
    allowed, only to the token override or a token candidate. *)
Theorem callback_posts_secret_only_to_allowed code state s a r s' a' :
  cache_allowed (resolver a) →
  auth_callback code state s a = (r, s', a') →
  cache_allowed (resolver a')
  ∧ (secure_log a' = secure_log a
     ∨ ∃ ep c,
         allowed "token" ep
         ∧ truthy_string code = Some c
         ∧ state = oauth_state s
         ∧ secure_log a' = secure_log a ++ [TokenPost ep (token_form c)]).
Proof.
  intros Hcache Hcb.
  apply callback_cases in Hcb
    as [(_ & _ & -> & _)|(c & Hc & Hstate & [(m & rs & Hcall & _ & _ & ->)|Hex])].
  - auto.
  - split; [|by left]. by eapply resolve_throw_allowed.
  - destruct Hex as (ep & rs & Hcall & -> & _).
    destruct (resolve_allowed _ _ _ _ Hcache Hcall) as [Hep Hcache'].
    split; [done|]. right. by exists ep, c.
Qed.

(** X16. [/auth] and [/auth/callback] compose: once [/auth] has run
    with the client configured, whether it redirected or not, the
    callback on that session answers 400 exactly when the code is
    missing or empty or the state parameter is not the state [/auth]
    drew. *)
Theorem callback_expects_state_of_auth drawn s a r s1 a1 code state a2 :
  ROBLOX_CLIENT_ID cfg ≠ EmptyString →
  ROBLOX_CLIENT_SECRET cfg ≠ EmptyString →
  auth drawn s a = (r, s1, a1) →
  (∃ text s' a', auth_callback code state s1 a2 = (Send 400 text, s', a'))
  ↔ truthy_string code = None ∨ state ≠ Some drawn.
Proof.
  intros Hid%nonempty_true Hsecret%nonempty_true Hauth.
  assert (oauth_state s1 = Some drawn) as Hs1.
  { revert Hauth. unfold OAuth.auth. rewrite Hid, Hsecret. simpl.
    destruct (resolveEndpoint "authorize" (resolver a)) as [[ep|message] rs];
      by intros [= <- <- <-]. }
  rewrite callback_400_iff. by rewrite Hs1.
Qed.

(** X17. The state check is a comparison, not a requirement: on a
    session in which no flow was started, a callback that carries a code
    and no state parameter passes it, and the token exchange is sent to
    the resolved token endpoint. *)
Theorem callback_without_state_on_fresh_session code c s a ep rs :
  oauth_state s = None →
  truthy_string code = Some c →
  resolveEndpoint "token" (resolver a) = (Return ep, rs) →
  secure_log (auth_callback code None s a).2
  = secure_log a ++ [TokenPost ep (token_form c)].
Proof.
  intros Hs Hc Hcall. unfold OAuth.auth_callback.
  rewrite Hc, Hs, Hcall. simpl.
  destruct (secure_net _ _) as [message|status text]; [done|].
  destruct (ok_status status); simpl; [|done].
  destruct (JSON_parse text) as [tokenJson|message]; [|done].
  by destruct (nullish tokenJson).
Qed.

(** *** [/auth/logout] and [/api/me] *)

Lemma or_default_truthy a dflt : truthy dflt = true → truthy (a ||| dflt) = true.
Proof. intros Hd. unfold Js.or. by destruct (truthy a) eqn:Ha. Qed.

Lemma or_empty_string a :
  truthy (a ||| VStr EmptyString) = true
  ∨ a ||| VStr EmptyString = VStr EmptyString.
Proof. unfold Js.or. destruct (truthy a) eqn:Ha; auto. Qed.

Lemma userinfo_from_endpoint_effect s a u a1 :
  cache_allowed (resolver a) →
  userinfo_from_endpoint s a = (u, a1) →
  cache_allowed (resolver a1)
  ∧ (secure_log a1 = secure_log a
     ∨ ∃ ep,
         allowed "userinfo" ep
         ∧ truthy (roblox_token s) = true
         ∧ secure_log a1
           = secure_log a
             ++ [BearerGet ep ("Bearer " +:+ to_string (roblox_token s))]).
Proof.
  intros Hcache. unfold OAuth.userinfo_from_endpoint.
  destruct (truthy (roblox_token s)) eqn:Htoken.
  2:{ intros [= <- <-]. auto. }
  destruct (resolveEndpoint "userinfo" (resolver a)) as [[ep|message] rs]
    eqn:Hcall.
  2:{ intros [= <- <-]. simpl. split; [|by left].
      by eapply resolve_throw_allowed. }
  destruct (resolve_allowed _ _ _ _ Hcache Hcall) as [Hep Hcache'].
  intros Hu.
  assert (a1 = App rs (secure_log a
            ++ [BearerGet ep ("Bearer " +:+ to_string (roblox_token s))]))
    as ->.
  { destruct (secure_net _ _) as [message|status text]; [by injection Hu|].
    destruct (ok_status status); [|by injection Hu].
    destruct (JSON_parse text); by injection Hu. }
  split; [done|]. right. by exists ep.
Qed.

Lemma headshot_from_thumbnails_effect userId h a1 h' a2 :
  headshot_from_thumbnails userId h a1 = (h', a2) →
  secure_log a2 = secure_log a1
  ∧ resolved (resolver a2) = resolved (resolver a1)
  ∧ (truthy h = true ∨ h = VStr EmptyString →
     truthy h' = true ∨ h' = VStr EmptyString).
Proof.
  unfold OAuth.headshot_from_thumbnails.
  destruct (negb (truthy h) && truthy userId).
  2:{ by intros [= <- <-]. }
  destruct (fetchJson net _ _) as [[th|] log'].
  - intros [= <- <-]. simpl. split_and!; [done..|].
    intros Hh. destruct (nullish th); [done|]. apply or_empty_string.
  - by intros [= <- <-].
Qed.

Lemma me_cases s a r a' :
  api_me s a = Some (r, a') →
  (r = Json 401 [("error", VStr "Not signed in")] ∧ a' = a
   ∧ truthy (roblox_token s) = false ∧ truthy (roblox_id_token s) = false)
  ∨ (truthy (roblox_token s) = true ∨ truthy (roblox_id_token s) = true)
    ∧ ∃ u a1,
        userinfo_from_endpoint s a = (u, a1)
        ∧ secure_log a' = secure_log a1
        ∧ resolved (resolver a') = resolved (resolver a1)
        ∧ (r = Json 500 [("error", VStr "Failed to retrieve user info")]
           ∨ ∃ userId name headshot,
               r = Json 200 [("id", userId); ("name", name);
                             ("headshot", headshot)]
               ∧ truthy name = true
               ∧ (truthy headshot = true ∨ headshot = VStr EmptyString)).
Proof.
  unfold OAuth.api_me.
  destruct (truthy (roblox_token s)) eqn:Htoken;
    destruct (truthy (roblox_id_token s)) eqn:Hid; simpl;
    try (intros [= <- <-]; left; by auto).
  all: intros Hme; right; (split; [by auto|]).
  all: destruct (userinfo_from_endpoint s a) as [u a1];
    exists u, a1; (split; [done|]).
  all: destruct (negb (truthy (userinfo_from_id_token s u)));
    [injection Hme as <- <-; by auto|].
  all: destruct (headshot_from_thumbnails _ _ a1) as [h' a2] eqn:Hthumb.
  all: apply headshot_from_thumbnails_effect in Hthumb as (Hlog & Hres & Hh);
    specialize (Hh (or_empty_string _)).
  all: destruct (userinfo_from_id_token s u); try done;
    injection Hme as <- <-; (split_and!; [done..|]); right;
    eexists _, _, _; (split_and!; [reflexivity | | done]);
    by apply or_default_truthy.
Qed.

(** X18. After [/auth/logout], [/api/me] answers 401 "Not signed in"
    without resolving or sending anything, whatever the session held;
    logging out redirects to [/] and keeps the state of a flow in
    progress. *)
Theorem logout_signs_out s a :
  api_me (auth_logout s).2 a
  = Some (Json 401 [("error", VStr "Not signed in")], a)
  ∧ (auth_logout s).1 = Redirect "/"
  ∧ oauth_state (auth_logout s).2 = oauth_state s.
Proof. done. Qed.

(** X19. [/api/me] answers 401 exactly when the session holds neither a
    truthy access token nor a truthy id token, and then it neither
    resolves an endpoint nor sends a request. *)
Theorem me_unauthorized_iff_no_token s a :
  ((∃ body a', api_me s a = Some (Json 401 body, a'))
   ↔ truthy (roblox_token s) = false ∧ truthy (roblox_id_token s) = false)
  ∧ (∀ body a', api_me s a = Some (Json 401 body, a') → a' = a).
Proof.
  split; [split|].
  - intros (body & a' & Hme).
    apply me_cases in Hme
      as [(_ & _ & ? & ?)|(_ & u & a1 & _ & _ & _ & [[=]|Hex])]; [done|].
    by destruct Hex as (? & ? & ? & [=] & _).
  - intros [Htoken Hid]. exists [("error", VStr "Not signed in")], a.
    unfold OAuth.api_me. by rewrite Htoken, Hid.
  - intros body a' Hme.
    apply me_cases in Hme
      as [(_ & ? & _)|(_ & u & a1 & _ & _ & _ & [[=]|Hex])]; [done|].
    by destruct Hex as (? & ? & ? & [=] & _).
Qed.





(** X21. The access token leaves the server in one way only: a call of
    [/api/me] sends at most one request with credentials, the GET with
    the bearer token of the session, only when that token is truthy,
    and, when every cached URL is allowed, only to the userinfo override
    or a userinfo candidate; the thumbnails request carries no
    credentials. *)
Theorem me_sends_bearer_only_to_allowed s a r a' :
  cache_allowed (resolver a) →
  api_me s a = Some (r, a') →
  cache_allowed (resolver a')
  ∧ (secure_log a' = secure_log a
     ∨ ∃ ep,
         allowed "userinfo" ep
         ∧ truthy (roblox_token s) = true
         ∧ secure_log a'
           = secure_log a
             ++ [BearerGet ep ("Bearer " +:+ to_string (roblox_token s))]).
Proof.
  intros Hcache Hme.
  apply me_cases in Hme
    as [(_ & -> & _)|(_ & u & a1 & Hu & Hlog & Hres & _)]; [by auto|].
  apply userinfo_from_endpoint_effect in Hu as [Hcache1 Hsent]; [|done].
  split.
  - intros key url. rewrite Hres. apply Hcache1.
  - by rewrite Hlog.
Qed.

End WithServer.

(** *** The properties on the sample server *)

Lemma auth_redirects_to_allowed_endpoint_witness :
  let out := sample_auth "k3x9" fresh_session sample_app in
  cache_allowed ∅ ENDPOINT_CANDIDATES (resolver sample_app)
  ∧ out.1.1
    = Redirect
        "https://authorize.roblox.com/oauth/authorize?client_id=client-1&response_type=code&redirect_uri=https%3A%2F%2Frblx.example%2Fauth%2Fcallback&state=k3x9&scope=openid%20profile"
  ∧ out.1.2 = Session (Some "k3x9") VUndefined VUndefined
  ∧ cache_allowed ∅ ENDPOINT_CANDIDATES (resolver out.2).
Proof.
  intros out.
  pose proof (cache_allowed_init ∅ ENDPOINT_CANDIDATES) as Hcache.
  destruct (auth_redirects_to_allowed_endpoint dead ∅ ENDPOINT_CANDIDATES
              sample_config encodeURIComponent "k3x9" fresh_session sample_app
              _ out.1.2 out.2 Hcache eq_refl)
    as (_ & Hs & _ & Hcache').
  split_and!; [exact Hcache | reflexivity | exact Hs | exact Hcache'].
Defined.

Lemma auth_redirects_whenever_configured_witness :
  ∃ url s' a', sample_auth "k3x9" fresh_session sample_app
               = (Redirect url, s', a').
Proof.
  apply (auth_redirects_whenever_configured dead ∅ ENDPOINT_CANDIDATES
           sample_config encodeURIComponent "k3x9" fresh_session sample_app).
  - discriminate.
  - discriminate.
  - right. by eexists.
Defined.

Lemma callback_writes_session_only_on_success_witness :
  let s := Session (Some "k3x9") VUndefined VUndefined in
  let out := sample_callback (Some "code-1") (Some "k3x9") s sample_app in
  out.1.1 = Redirect "/"
  ∧ oauth_state out.1.2 = Some "k3x9"
  ∧ roblox_token out.1.2 = VStr "token-1".
Proof.
  intros s out.
  assert (sample_callback (Some "code-1") (Some "k3x9") s sample_app
          = (out.1.1, out.1.2, out.2)) as Hout by reflexivity.
  destruct (callback_writes_session_only_on_success dead ∅
              ENDPOINT_CANDIDATES sample_secure_net sample_config sample_parse
              "Cannot read properties of null" (Some "code-1") (Some "k3x9")
              s sample_app out.1.1 out.1.2 out.2 Hout)
    as [_ Hsuccess].
  destruct (Hsuccess eq_refl) as (Hstate & _).
  split_and!; [reflexivity | exact Hstate | reflexivity].
Defined.

Lemma callback_posts_secret_only_to_allowed_witness :
  let s := Session (Some "k3x9") VUndefined VUndefined in
  let out := sample_callback (Some "code-1") (Some "k3x9") s sample_app in
  cache_allowed ∅ ENDPOINT_CANDIDATES (resolver out.2)
  ∧ (secure_log out.2 = secure_log sample_app
     ∨ ∃ ep c,
         allowed ∅ ENDPOINT_CANDIDATES "token" ep
         ∧ truthy_string (Some "code-1") = Some c
         ∧ Some "k3x9" = oauth_state s
         ∧ secure_log out.2
           = secure_log sample_app ++ [TokenPost ep (token_form sample_config c)]).
Proof.
  intros s out.
  apply (callback_posts_secret_only_to_allowed dead ∅ ENDPOINT_CANDIDATES
           sample_secure_net sample_config sample_parse
           "Cannot read properties of null" (Some "code-1") (Some "k3x9")
           s sample_app out.1.1 out.1.2 out.2).
  - apply cache_allowed_init.
  - reflexivity.
Defined.

Lemma callback_expects_state_of_auth_witness :
  let s1 := (sample_auth "k3x9" fresh_session sample_app).1.2 in
  (∃ text s' a',
     sample_callback (Some "code-1") (Some "other") s1 sample_app
     = (Send 400 text, s', a'))
  ↔ truthy_string (Some "code-1") = None ∨ Some "other" ≠ Some "k3x9".
Proof.
  intros s1.
  apply (callback_expects_state_of_auth dead ∅ ENDPOINT_CANDIDATES
           sample_secure_net sample_config encodeURIComponent sample_parse
           "Cannot read properties of null" "k3x9" fresh_session sample_app
           (sample_auth "k3x9" fresh_session sample_app).1.1 s1
           (sample_auth "k3x9" fresh_session sample_app).2).
  - discriminate.
  - discriminate.
  - reflexivity.
Defined.

Lemma callback_without_state_on_fresh_session_witness :
  secure_log (sample_callback (Some "code-1") None fresh_session sample_app).2
  = secure_log sample_app
    ++ [TokenPost "https://authorize.roblox.com/oauth/token"
          (token_form sample_config "code-1")].
Proof.
  apply (callback_without_state_on_fresh_session dead ∅ ENDPOINT_CANDIDATES
           sample_secure_net sample_config sample_parse
           "Cannot read properties of null" (Some "code-1") "code-1"
           fresh_session sample_app "https://authorize.roblox.com/oauth/token"
           (resolveEndpoint dead ∅ ENDPOINT_CANDIDATES "token" init).2).
  - reflexivity.
  - reflexivity.
  - reflexivity.
Defined.


Lemma me_sends_bearer_only_to_allowed_witness :
  let s := Session None (VStr "token-1") VUndefined in
  let a' := default sample_app (snd <$> sample_me s sample_app) in
  cache_allowed ∅ ENDPOINT_CANDIDATES (resolver a')
  ∧ (secure_log a' = secure_log sample_app
     ∨ ∃ ep,
         allowed ∅ ENDPOINT_CANDIDATES "userinfo" ep
         ∧ truthy (roblox_token s) = true
         ∧ secure_log a'
           = secure_log sample_app
             ++ [BearerGet ep ("Bearer " +:+ to_string (roblox_token s))]).
Proof.
  intros s a'.
  apply (me_sends_bearer_only_to_allowed dead ∅ ENDPOINT_CANDIDATES
           sample_secure_net encodeURIComponent sample_parse sample_decode
           s sample_app
           (Json 200 [("id", VStr "42"); ("name", VStr "Ann");
                      ("headshot", VStr EmptyString)]) a').
  - apply cache_allowed_init.
  - reflexivity.
Defined.

End OAuthProps.
